(** * detect_non_followers.py: a shallow embedding and its properties

    The script reads two exported HTML pages, diffs them line by line with
    [difflib.unified_diff], pulls [href] links out of the diff text with a
    regular expression, filters them, and opens the survivors in browser tabs
    in batches.

    A Python [str] is a sequence of Unicode code points; it is modelled as a
    list of code points ([N]).  The three library functions the script leans
    on ([str.splitlines], [re.findall] for the one pattern used, and
    [difflib.unified_diff] with its [SequenceMatcher]) are embedded from the
    CPython 3.11 sources, the script's own functions from the script.
    [clean_html] is defined by the script but never called; it is embedded
    and studied on its own. *)

From Stdlib Require Decimal.
From Stdlib Require Import String Ascii.
From Stdlib Require Import List Bool Arith NArith ZArith Lia Sorted.
Import ListNotations.

Set Implicit Arguments.

(** ** Python strings *)

Module PyStr.

Definition char := N.
Definition str := list char.

Definition char_of_ascii (c : ascii) : char := N_of_ascii c.

Fixpoint of_string (s : string) : str :=
  match s with
  | EmptyString => []
  | String c s' => char_of_ascii c :: of_string s'
  end.

Definition LF : char := 10%N.
Definition CR : char := 13%N.
Definition quote : char := 34%N.

Fixpoint str_eqb (s t : str) : bool :=
  match s, t with
  | [], [] => true
  | c :: s', d :: t' => N.eqb c d && str_eqb s' t'
  | _, _ => false
  end.

(** [x in l] for a list of strings. *)
Definition mem (x : str) (l : list str) : bool := existsb (str_eqb x) l.

(** [s.startswith(p)], returning what follows the prefix. *)
Fixpoint strip_prefix (p s : str) : option str :=
  match p, s with
  | [], _ => Some s
  | c :: p', d :: s' => if N.eqb c d then strip_prefix p' s' else None
  | _ :: _, [] => None
  end.

Definition startswith (p s : str) : bool :=
  match strip_prefix p s with Some _ => true | None => false end.

(** [p in s] for strings: [p] occurs as a substring of [s]. *)
Fixpoint contains (p s : str) : bool :=
  startswith p s ||
  match s with
  | [] => false
  | _ :: s' => contains p s'
  end.

(** The characters [str.splitlines] treats as line boundaries. *)
Definition is_linebreak (c : char) : bool :=
  existsb (N.eqb c)
    [10; 13; 11; 12; 28; 29; 30; 133; 8232; 8233]%N.

(** [s.splitlines(keepends=True)]: [cur] is the line read so far, reversed.
    A carriage return directly followed by a line feed ends one line. *)
Fixpoint splitlines_from (cur : str) (s : str) : list str :=
  match s with
  | [] => match cur with [] => [] | _ :: _ => [rev cur] end
  | c :: s' =>
      if is_linebreak c then
        if N.eqb c CR then
          match s' with
          | d :: s'' =>
              if N.eqb d LF then rev (d :: c :: cur) :: splitlines_from [] s''
              else rev (c :: cur) :: splitlines_from [] s'
          | [] => rev (c :: cur) :: splitlines_from [] s'
          end
        else rev (c :: cur) :: splitlines_from [] s'
      else splitlines_from (c :: cur) s'
  end.

Definition splitlines (s : str) : list str := splitlines_from [] s.

(** [str.join] on the empty separator. *)
Definition join (l : list str) : str := concat l.

Definition digit_char (d : nat) : char := N.of_nat (48 + d).

Fixpoint str_of_uint (u : Decimal.uint) : str :=
  match u with
  | Decimal.Nil => []
  | Decimal.D0 u' => digit_char 0 :: str_of_uint u'
  | Decimal.D1 u' => digit_char 1 :: str_of_uint u'
  | Decimal.D2 u' => digit_char 2 :: str_of_uint u'
  | Decimal.D3 u' => digit_char 3 :: str_of_uint u'
  | Decimal.D4 u' => digit_char 4 :: str_of_uint u'
  | Decimal.D5 u' => digit_char 5 :: str_of_uint u'
  | Decimal.D6 u' => digit_char 6 :: str_of_uint u'
  | Decimal.D7 u' => digit_char 7 :: str_of_uint u'
  | Decimal.D8 u' => digit_char 8 :: str_of_uint u'
  | Decimal.D9 u' => digit_char 9 :: str_of_uint u'
  end.

(** [str(n)] and ['{}'.format(n)] for a non-negative integer. *)
Definition str_of_nat (n : nat) : str := str_of_uint (Nat.to_uint n).

(** [str(z)] for an integer. *)
Definition str_of_Z (z : Z) : str :=
  match z with
  | Zneg p => of_string "-" ++ str_of_nat (Pos.to_nat p)
  | _ => str_of_nat (Z.to_nat z)
  end.

End PyStr.
Import PyStr.

(** ** The regular expression of [extract_links] *)

Module Re.

(** One attempt of the pattern of [extract_links] at the start of [s], as
    the backtracking matcher runs it.  With Q for the double quote character
    the pattern reads  href=Q(https?://[^Q]+)Q .  The result is the captured
    group and the text after the whole match. *)

Definition lit_href : str := of_string "href=" ++ [quote].
Definition lit_http : str := of_string "http".
Definition lit_s : str := of_string "s".
Definition lit_sep : str := of_string "://".

(** The greedy [^Q]+ : the longest run of characters other than the quote.
    Giving characters back cannot help, for the next pattern item is the
    quote itself and every character of the run differs from it. *)
Fixpoint span_not_quote (s : str) : str * str :=
  match s with
  | [] => ([], [])
  | c :: s' =>
      if N.eqb c quote then ([], s)
      else let (run, rest) := span_not_quote s' in (c :: run, rest)
  end.

(** The items  ://[^Q]+Q  after the scheme [scheme] has been read. *)
Definition match_tail (scheme : str) (s : str) : option (str * str) :=
  match strip_prefix lit_sep s with
  | None => None
  | Some s1 =>
      match span_not_quote s1 with
      | (c :: run, d :: rest) =>
          if N.eqb d quote then Some (scheme ++ lit_sep ++ c :: run, rest) else None
      | _ => None
      end
  end.

Definition match_href (s : str) : option (str * str) :=
  match strip_prefix lit_href s with
  | None => None
  | Some s1 =>
      match strip_prefix lit_http s1 with
      | None => None
      | Some s2 =>
          (* [s?] is greedy: first with the [s], then without *)
          match
            match strip_prefix lit_s s2 with
            | Some s3 => match_tail (lit_http ++ lit_s) s3
            | None => None
            end
          with
          | Some r => Some r
          | None => match_tail lit_http s2
          end
      end
  end.

(** Length of the whole match, from what is left after it. *)
Definition match_length (s rest : str) : nat := length s - length rest.

(** [re.findall]: scan from the left; after a match resume right behind it,
    otherwise move one character on.  [skip] counts the characters still
    covered by the last match. *)
Fixpoint findall_from (skip : nat) (s : str) : list str :=
  match s with
  | [] => []
  | _ :: s' =>
      match skip with
      | S k => findall_from k s'
      | O =>
          match match_href s with
          | Some (url, rest) => url :: findall_from (match_length s rest - 1) s'
          | None => findall_from 0 s'
          end
      end
  end.

Definition findall (s : str) : list str := findall_from 0 s.

End Re.

(** ** The regular expressions of [clean_html] *)

Module Sub.

Definition LT : char := 60%N.
Definition GT : char := 62%N.
Definition SPACE : char := 32%N.

(** The characters that the class \s of a [str] pattern matches; they are
    also the ones [str.strip] removes. *)
Definition is_space (c : char) : bool :=
  existsb (N.eqb c)
    [9; 10; 11; 12; 13; 28; 29; 30; 31; 32; 133; 160; 5760;
     8192; 8193; 8194; 8195; 8196; 8197; 8198; 8199; 8200; 8201; 8202;
     8232; 8233; 8239; 8287; 12288]%N.

(** The greedy [^>]+ : the longest run of characters other than [GT]. *)
Fixpoint span_not_gt (s : str) : str * str :=
  match s with
  | [] => ([], [])
  | c :: s' =>
      if N.eqb c GT then ([], s)
      else let (run, rest) := span_not_gt s' in (c :: run, rest)
  end.

(** The greedy \s+ : the longest run of white space. *)
Fixpoint span_space (s : str) : str * str :=
  match s with
  | [] => ([], [])
  | c :: s' =>
      if is_space c then let (run, rest) := span_space s' in (c :: run, rest)
      else ([], s)
  end.

(** One attempt of the pattern  <[^>]+>  at the start of [s]; the result is
    the text after the match. *)
Definition match_tag (s : str) : option str :=
  match s with
  | [] => None
  | c :: s1 =>
      if N.eqb c LT then
        match span_not_gt s1 with
        | (_ :: _, d :: rest) => if N.eqb d GT then Some rest else None
        | _ => None
        end
      else None
  end.

(** One attempt of the pattern  \s+  at the start of [s]. *)
Definition match_spaces (s : str) : option str :=
  match span_space s with
  | (_ :: _, rest) => Some rest
  | ([], _) => None
  end.

(** [re.sub(pattern, repl, s)] for a pattern that matches no empty string,
    given by its matcher [m]: scan from the left, put [repl] for each match
    and resume right behind it, copy every other character.  [skip] counts
    the characters still covered by the last match. *)
Fixpoint sub_from (m : str -> option str) (repl : str) (skip : nat) (s : str) : str :=
  match s with
  | [] => []
  | c :: s' =>
      match skip with
      | S k => sub_from m repl k s'
      | O =>
          match m s with
          | Some rest => repl ++ sub_from m repl (length s - length rest - 1) s'
          | None => c :: sub_from m repl 0 s'
          end
      end
  end.

Definition sub (m : str -> option str) (repl : str) (s : str) : str :=
  sub_from m repl 0 s.

(** [str.lstrip], [str.rstrip] and [str.strip] without argument. *)
Fixpoint lstrip (s : str) : str :=
  match s with
  | [] => []
  | c :: s' => if is_space c then lstrip s' else s
  end.

Definition rstrip (s : str) : str := rev (lstrip (rev s)).

Definition strip (s : str) : str := rstrip (lstrip s).

End Sub.

(** ** difflib: SequenceMatcher and unified_diff *)

Module Difflib.

Abbreviation line := str (only parsing).

(** *** [SequenceMatcher.__chain_b]

    [b2j] maps each line of [b] to the increasing list of its positions.  The
    dict is kept as an association list in insertion order. *)

Definition dict_b2j := list (line * list nat).

(** [b2j.get(elt, nothing)] *)
Fixpoint b2j_get (d : dict_b2j) (elt : line) : list nat :=
  match d with
  | [] => []
  | (k, v) :: d' => if str_eqb k elt then v else b2j_get d' elt
  end.

(** [indices = b2j.setdefault(elt, []); indices.append(i)] *)
Fixpoint b2j_append (d : dict_b2j) (elt : line) (i : nat) : dict_b2j :=
  match d with
  | [] => [(elt, [i])]
  | (k, v) :: d' =>
      if str_eqb k elt then (k, v ++ [i]) :: d' else (k, v) :: b2j_append d' elt i
  end.

Fixpoint enumerate_from (A : Type) (i : nat) (l : list A) : list (nat * A) :=
  match l with
  | [] => []
  | x :: l' => (i, x) :: enumerate_from (S i) l'
  end.

Definition b2j_build (b : list line) : dict_b2j :=
  fold_left (fun d ie => b2j_append d (snd ie) (fst ie)) (enumerate_from 0 b) [].

(** The popularity threshold: with [autojunk] on and at least 200 lines, a
    line that occurs more than [n // 100 + 1] times is dropped from [b2j].
    [isjunk] is [None], so the junk set stays empty. *)
Definition is_popular (n : nat) (idxs : list nat) : bool :=
  (200 <=? n) && (n / 100 + 1 <? length idxs).

Definition chain_b (b : list line) : dict_b2j :=
  let b2j := b2j_build b in
  let n := length b in
  filter (fun kv => negb (is_popular n (snd kv))) b2j.

(** *** [SequenceMatcher.find_longest_match] *)

Definition Match := (nat * nat * nat)%type.

Definition dict_j2len := list (nat * nat).

Fixpoint j2len_get (d : dict_j2len) (j : nat) : nat :=
  match d with
  | [] => 0
  | (j', k) :: d' => if j' =? j then k else j2len_get d' j
  end.

(** [j2len.get(j-1, 0)]; for [j = 0] the key is [-1], which is never set. *)
Definition j2len_get_pred (d : dict_j2len) (j : nat) : nat :=
  match j with
  | O => 0
  | S j' => j2len_get d j'
  end.

(** The inner loop  [for j in b2j.get(a[i], nothing)]  of row [i]. *)
Fixpoint scan_row (i blo bhi : nat) (j2len : dict_j2len) (js : list nat)
    (newj2len : dict_j2len) (best : Match) : dict_j2len * Match :=
  match js with
  | [] => (newj2len, best)
  | j :: js' =>
      if j <? blo then scan_row i blo bhi j2len js' newj2len best
      else if bhi <=? j then (newj2len, best)
      else
        let k := j2len_get_pred j2len j + 1 in
        let '(_, _, bestsize) := best in
        scan_row i blo bhi j2len js' ((j, k) :: newj2len)
          (if bestsize <? k then (i + 1 - k, j + 1 - k, k) else best)
  end.

(** The outer loop  [for i in range(alo, ahi)]. *)
Definition scan_rows (a : list line) (b2j : dict_b2j) (alo ahi blo bhi : nat)
    : dict_j2len * Match :=
  fold_left
    (fun st i => scan_row i blo bhi (fst st) (b2j_get b2j (nth i a [])) [] (snd st))
    (seq alo (ahi - alo))
    ([], (alo, blo, 0)).

(** First [while]: grow the block to the left.  Every turn lowers [besti],
    and the loop has ended once [besti] is 0, so recursion on [besti] runs
    exactly the loop. *)
Fixpoint extend_left (a b : list line) (alo blo : nat) (besti bestj bestsize : nat)
    : Match :=
  match besti with
  | O => (besti, bestj, bestsize)
  | S i' =>
      if (alo <? besti) && (blo <? bestj)
         && str_eqb (nth i' a []) (nth (bestj - 1) b [])
      then extend_left a b alo blo i' (bestj - 1) (bestsize + 1)
      else (besti, bestj, bestsize)
  end.

(** Second [while]: grow the block to the right.  [room] is
    [ahi - (besti + bestsize)], which every turn lowers by one and which is 0
    only when the loop condition fails. *)
Fixpoint extend_right (a b : list line) (ahi bhi : nat) (room : nat)
    (besti bestj bestsize : nat) : Match :=
  match room with
  | O => (besti, bestj, bestsize)
  | S room' =>
      if (besti + bestsize <? ahi) && (bestj + bestsize <? bhi)
         && str_eqb (nth (besti + bestsize) a []) (nth (bestj + bestsize) b [])
      then extend_right a b ahi bhi room' besti bestj (bestsize + 1)
      else (besti, bestj, bestsize)
  end.

(** The two further loops of the function absorb junk lines next to the
    block; with an empty junk set their conditions never hold. *)
Definition find_longest_match (a b : list line) (b2j : dict_b2j)
    (alo ahi blo bhi : nat) : Match :=
  let '(besti, bestj, bestsize) := snd (scan_rows a b2j alo ahi blo bhi) in
  let '(besti, bestj, bestsize) := extend_left a b alo blo besti bestj bestsize in
  extend_right a b ahi bhi (ahi - (besti + bestsize)) besti bestj bestsize.

(** *** [SequenceMatcher.get_matching_blocks] *)

Definition window := (nat * nat * nat * nat)%type.

(** The [while queue] loop.  The queue is a stack; its top is the head of
    the list.  Each turn replaces a window by at most two strictly smaller
    ones, so [length a + length b + 1] turns always empty the queue (lemma
    [blocks_loop_fuel] below); [fuel] bounds the turns. *)
Fixpoint blocks_loop (a b : list line) (b2j : dict_b2j) (fuel : nat)
    (queue : list window) (matching_blocks : list Match) : list Match :=
  match fuel with
  | O => matching_blocks
  | S fuel' =>
      match queue with
      | [] => matching_blocks
      | (alo, ahi, blo, bhi) :: queue' =>
          let '(i, j, k) := find_longest_match a b b2j alo ahi blo bhi in
          if k =? 0 then blocks_loop a b b2j fuel' queue' matching_blocks
          else
            let q1 :=
              if (alo <? i) && (blo <? j) then (alo, i, blo, j) :: queue'
              else queue' in
            let q2 :=
              if (i + k <? ahi) && (j + k <? bhi) then (i + k, ahi, j + k, bhi) :: q1
              else q1 in
            blocks_loop a b b2j fuel' q2 (matching_blocks ++ [(i, j, k)])
      end
  end.

(** Tuple comparison, for [matching_blocks.sort()]. *)
Definition match_leb (x y : Match) : bool :=
  let '(i1, j1, k1) := x in
  let '(i2, j2, k2) := y in
  (i1 <? i2) || ((i1 =? i2) && ((j1 <? j2) || ((j1 =? j2) && (k1 <=? k2)))).

Fixpoint insert_sorted (x : Match) (l : list Match) : list Match :=
  match l with
  | [] => [x]
  | y :: l' => if match_leb x y then x :: l else y :: insert_sorted x l'
  end.

Definition sort_blocks (l : list Match) : list Match :=
  fold_right insert_sorted [] l.

(** The loop that merges adjacent blocks, with the pending block
    [(i1, j1, k1)]. *)
Fixpoint collapse (i1 j1 k1 : nat) (blocks : list Match) : list Match :=
  match blocks with
  | [] => if k1 =? 0 then [] else [(i1, j1, k1)]
  | (i2, j2, k2) :: rest =>
      if (i1 + k1 =? i2) && (j1 + k1 =? j2) then collapse i1 j1 (k1 + k2) rest
      else (if k1 =? 0 then [] else [(i1, j1, k1)]) ++ collapse i2 j2 k2 rest
  end.

Definition get_matching_blocks (a b : list line) : list Match :=
  let la := length a in
  let lb := length b in
  let blocks := blocks_loop a b (chain_b b) (la + lb + 1) [(0, la, 0, lb)] [] in
  collapse 0 0 0 (sort_blocks blocks) ++ [(la, lb, 0)].

(** *** [SequenceMatcher.get_opcodes] *)

Inductive tag := Replace | Delete | Insert | Equal.

Definition opcode := (tag * nat * nat * nat * nat)%type.

Definition is_equal (t : tag) : bool :=
  match t with Equal => true | _ => false end.

Fixpoint opcodes_from (i j : nat) (blocks : list Match) : list opcode :=
  match blocks with
  | [] => []
  | (ai, bj, size) :: rest =>
      (if (i <? ai) && (j <? bj) then [(Replace, i, ai, j, bj)]
       else if i <? ai then [(Delete, i, ai, j, bj)]
       else if j <? bj then [(Insert, i, ai, j, bj)]
       else [])
      ++ (if size =? 0 then [] else [(Equal, ai, ai + size, bj, bj + size)])
      ++ opcodes_from (ai + size) (bj + size) rest
  end.

Definition get_opcodes (a b : list line) : list opcode :=
  opcodes_from 0 0 (get_matching_blocks a b).

(** *** [SequenceMatcher.get_grouped_opcodes] *)

(** [codes[0] = ...] when the first code is an equal one. *)
Definition trim_first (n : nat) (codes : list opcode) : list opcode :=
  match codes with
  | (Equal, i1, i2, j1, j2) :: rest =>
      (Equal, Nat.max i1 (i2 - n), i2, Nat.max j1 (j2 - n), j2) :: rest
  | _ => codes
  end.

(** [codes[-1] = ...] when the last code is an equal one. *)
Fixpoint trim_last (n : nat) (codes : list opcode) : list opcode :=
  match codes with
  | [] => []
  | [(Equal, i1, i2, j1, j2)] =>
      [(Equal, i1, Nat.min i2 (i1 + n), j1, Nat.min j2 (j1 + n))]
  | c :: rest => c :: trim_last n rest
  end.

Definition only_equal (group : list opcode) : bool :=
  match group with
  | [(Equal, _, _, _, _)] => true
  | _ => false
  end.

Fixpoint group_loop (n : nat) (group : list opcode) (codes : list opcode)
    : list (list opcode) :=
  match codes with
  | [] =>
      match group with
      | [] => []
      | _ :: _ => if only_equal group then [] else [group]
      end
  | (t, i1, i2, j1, j2) :: rest =>
      if is_equal t && (n + n <? i2 - i1) then
        (group ++ [(t, i1, Nat.min i2 (i1 + n), j1, Nat.min j2 (j1 + n))])
        :: group_loop n [(t, Nat.max i1 (i2 - n), i2, Nat.max j1 (j2 - n), j2)] rest
      else group_loop n (group ++ [(t, i1, i2, j1, j2)]) rest
  end.

Definition get_grouped_opcodes (a b : list line) (n : nat) : list (list opcode) :=
  let codes := get_opcodes a b in
  let codes := match codes with [] => [(Equal, 0, 1, 0, 1)] | _ :: _ => codes end in
  let codes := trim_first n codes in
  let codes := trim_last n codes in
  group_loop n [] codes.

(** *** [unified_diff] *)

Definition format_range_unified (start stop : nat) : str :=
  let beginning := start + 1 in
  let length := stop - start in
  if length =? 1 then str_of_nat beginning
  else
    let beginning := if length =? 0 then beginning - 1 else beginning in
    str_of_nat beginning ++ of_string "," ++ str_of_nat length.

(** [l[i1:i2]] for [0 <= i1 <= i2] *)
Definition slice (A : Type) (l : list A) (i1 i2 : nat) : list A :=
  firstn (i2 - i1) (skipn i1 l).

Definition prefixed (mark : string) (lines : list line) : list line :=
  map (fun l => of_string mark ++ l) lines.

Definition opcode_lines (a b : list line) (c : opcode) : list line :=
  let '(t, i1, i2, j1, j2) := c in
  match t with
  | Equal => prefixed " " (slice a i1 i2)
  | Replace => prefixed "-" (slice a i1 i2) ++ prefixed "+" (slice b j1 j2)
  | Delete => prefixed "-" (slice a i1 i2)
  | Insert => prefixed "+" (slice b j1 j2)
  end.

Definition lineterm : str := [LF].

Definition hunk_header (group : list opcode) : line :=
  let '(_, first1, _, first3, _) := hd (Equal, 0, 0, 0, 0) group in
  let '(_, _, last2, _, last4) := last group (Equal, 0, 0, 0, 0) in
  of_string "@@ -" ++ format_range_unified first1 last2
  ++ of_string " +" ++ format_range_unified first3 last4
  ++ of_string " @@" ++ lineterm.

Definition group_lines (a b : list line) (group : list opcode) : list line :=
  hunk_header group :: flat_map (opcode_lines a b) group.

(** [unified_diff(a, b)] with the defaults: empty file names and dates,
    three lines of context, the line feed as line terminator. *)
Definition unified_diff (a b : list line) : list line :=
  match get_grouped_opcodes a b 3 with
  | [] => []
  | groups =>
      [of_string "--- " ++ lineterm; of_string "+++ " ++ lineterm]
      ++ flat_map (group_lines a b) groups
  end.

End Difflib.

(** ** The script: link extraction *)

(** [extract_links(html_content)] *)
Definition extract_links (html_content : str) : list str :=
  Re.findall html_content.

(** [clean_html(html_content)] *)
Definition clean_html (html_content : str) : str :=
  let clean_text := Sub.sub Sub.match_tag [] html_content in
  Sub.strip (Sub.sub Sub.match_spaces [Sub.SPACE] clean_text).

Definition instagram : str := of_string "https://www.instagram.com/".

(** [find_and_extract_diff_links(followers, followings)]: the loop over
    [extracted_links] appends, in order, every link that passes the test;
    that is a [filter]. *)
Definition find_and_extract_diff_links (followers followings : str) : list str :=
  let diff := Difflib.unified_diff (splitlines followings) (splitlines followers) in
  let diff_content := join diff in
  let extracted_links := extract_links diff_content in
  filter
    (fun link => contains instagram link && negb (mem link (extract_links followings)))
    extracted_links.

(** ** Effects: what [main] does to the outside world *)

Inductive event :=
| Print (text : str)
| ReadFile (path : str)
| OpenNewTab (url : str)
| Sleep (seconds : Z).

(** The exceptions a run can end with.  [OSError] stands for a failure of
    the operating system that has no class of its own among the others. *)
Inductive exn :=
| FileNotFoundError
| IsADirectoryError
| NotADirectoryError
| PermissionError
| OSError
| UnicodeDecodeError
| ValueError
| OverflowError.

Inductive result (A : Type) :=
| Ok (x : A)
| Raise (e : exn).
Arguments Raise {A} e.

(** A computation yields the events it caused, in order, and either a value
    or the exception that ended it. *)
Definition IO (A : Type) := (list event * result A)%type.

Definition ret (A : Type) (x : A) : IO A := ([], Ok x).

Definition bind (A B : Type) (m : IO A) (f : A -> IO B) : IO B :=
  match m with
  | (tr, Ok x) => let (tr', r) := f x in (tr ++ tr', r)
  | (tr, Raise e) => (tr, Raise e)
  end.

Notation "x <- m ;; k" := (bind m (fun x => k))
  (at level 61, m at next level, right associativity).
Notation "m ;; k" := (bind m (fun _ => k))
  (at level 61, right associativity).

Definition emit (e : event) : IO unit := ([e], Ok tt).
Definition raise {A : Type} (e : exn) : IO A := ([], Raise e).

(** [for x in l: body(x)] *)
Fixpoint for_each (A : Type) (l : list A) (body : A -> IO unit) : IO unit :=
  match l with
  | [] => ret tt
  | x :: l' => body x ;; for_each l' body
  end.

Definition print (text : str) : IO unit := emit (Print text).

Definition open_new_tab (url : str) : IO unit := emit (OpenNewTab url).

(** What a run meets outside itself.
    - [content path] is the text [f.read()] returns when the file at [path]
      can be opened and decoded, and [None] when it cannot;
    - [failure path] is the exception that [open] or [f.read()] ends with
      in that case ([FileNotFoundError] for a missing file,
      [IsADirectoryError] for a directory, [UnicodeDecodeError] for bytes
      that are not UTF-8, and so on);
    - [wakes k d] tells whether the system carries out the pause of [d]
      seconds asked for by the [k]-th call of [time.sleep] in the run
      (counted from 0), or fails it.  The answer depends on the system and
      its clock: for one, Linux turns down a pause whose end lies beyond what
      its clock can hold. *)
Record world := {
  content :> str -> option str;
  failure : str -> exn;
  wakes : nat -> Z -> bool
}.

(** The name under which a world is taken where only its files matter. *)
Abbreviation filesystem := world (only parsing).

(** The largest whole number of seconds, either side of zero, whose count
    of nanoseconds still fits the 64-bit time of [time.sleep]. *)
Definition sleep_limit : Z := 9223372036.

(** The exception the [k]-th [time.sleep(d)] ends with instead of pausing,
    if any: the conversion of [d] comes first, then the sign, then the
    system. *)
Definition sleep_refusal (w : world) (k : nat) (d : Z) : option exn :=
  if ((d <? - sleep_limit) || (sleep_limit <? d))%Z then Some OverflowError
  else if (d <? 0)%Z then Some ValueError
  else if wakes w k d then None
  else Some OSError.

(** [time.sleep(d)], as the [k]-th call of the run. *)
Definition sleep (w : world) (k : nat) (d : Z) : IO unit :=
  match sleep_refusal w k d with
  | Some e => raise e
  | None => emit (Sleep d)
  end.

Definition read_file (fs : filesystem) (path : str) : IO str :=
  emit (ReadFile path) ;;
  match fs path with
  | Some text => ret text
  | None => raise (failure fs path)
  end.

(** [range(start, stop, step)] as the list it runs through; a zero step is
    a [ValueError].  The length is CPython's own formula. *)
Definition range_length (start stop step : Z) : Z :=
  if (0 <? step)%Z then
    (if (start <? stop)%Z then (stop - start - 1) / step + 1 else 0)%Z
  else
    (if (stop <? start)%Z then (start - stop - 1) / (- step) + 1 else 0)%Z.

Definition range_list (start stop step : Z) : list Z :=
  map (fun k => (start + Z.of_nat k * step)%Z)
      (seq 0 (Z.to_nat (range_length start stop step))).

Definition range3 (start stop step : Z) : IO (list Z) :=
  if (step =? 0)%Z then raise ValueError else ret (range_list start stop step).

(** ** The script: [main] *)

Record Args := {
  followers : option str;
  followings : option str;
  num_tabs : Z;
  duration : Z
}.

(** Truth value of an argument that is either [None] or a string. *)
Definition truthy (x : option str) : bool :=
  match x with
  | None => false
  | Some [] => false
  | Some (_ :: _) => true
  end.

Definition path_of (x : option str) : str :=
  match x with Some p => p | None => [] end.

Definition len (A : Type) (l : list A) : Z := Z.of_nat (length l).

Definition msg_missing : str :=
  of_string "Please provide both followers and followings HTML files.".
Definition msg_count (n : nat) : str :=
  of_string "Number of non-followers found: " ++ str_of_nat n.
Definition msg_chunk (index : Z) : str :=
  of_string "Opening new links in chunks of" ++ of_string " " ++ str_of_Z index.
Definition msg_none : str :=
  of_string "No new Instagram links were found in Followers compared to Followings.".

(** [new_links[i]] for an index the guard [i < len(new_links)] lets through;
    the loops only produce indices from 0 upwards. *)
Definition item (l : list str) (i : Z) : str := nth (Z.to_nat i) l [].

(** The elements of a list with their ordinals. *)
Definition numbered (A : Type) (l : list A) : list (nat * A) :=
  combine (seq 0 (length l)) l.

(** The body of  [if new_links:]  in [main].  The loop over the indices is
    run with each index's ordinal [k]: the pause of the [k]-th turn is the
    [k]-th call of [time.sleep] in the run, for [main] sleeps nowhere
    else. *)
Definition open_in_batches (w : world) (new_links : list str)
    (num_tabs duration : Z) : IO unit :=
  indices <- range3 0 (len new_links) num_tabs ;;
  for_each (numbered indices) (fun turn =>
    let (k, index) := turn in
    print (msg_chunk index) ;;
    for_each (range_list index (index + num_tabs) 1) (fun i =>
      if (i <? len new_links)%Z then
        print (item new_links i) ;;
        open_new_tab (item new_links i)
      else ret tt) ;;
    sleep w k duration).

Definition main (fs : filesystem) (args : Args) : IO unit :=
  let followers_file := followers args in
  let followings_file := followings args in
  let num_tabs := num_tabs args in
  let duration := duration args in
  if negb (truthy followers_file) || negb (truthy followings_file) then
    print msg_missing
  else
    followers <- read_file fs (path_of followers_file) ;;
    followings <- read_file fs (path_of followings_file) ;;
    let new_links := find_and_extract_diff_links followings followers in
    print (msg_count (length new_links)) ;;
    match new_links with
    | _ :: _ => open_in_batches fs new_links num_tabs duration
    | [] => print msg_none
    end.

(** The Result List of a run: what [main] binds to [new_links], as a
    function of the two documents read.  Note the order of the arguments in
    [main]'s call. *)
Definition result_list (followers_doc followings_doc : str) : list str :=
  find_and_extract_diff_links followings_doc followers_doc.

(** ** Sample documents *)

Definition ex_alice : str := of_string "https://www.instagram.com/alice/".
Definition ex_bob : str := of_string "https://www.instagram.com/bob/".
Definition href (url : str) : str := of_string "href=" ++ [quote] ++ url ++ [quote].

Definition doc_alice : str := href ex_alice ++ [LF].
Definition doc_alice_bob : str := href ex_alice ++ [LF] ++ href ex_bob ++ [LF].
Definition doc_bob : str := href ex_bob.

(** A run of [main] on two documents, with the flags' default values. *)
Definition followers_path : str := of_string "followers.html".
Definition followings_path : str := of_string "followings.html".

(** The two files and nothing else; every pause is carried out. *)
Definition two_files (followers_doc followings_doc : str) : filesystem :=
  {| content := fun path =>
       if str_eqb path followers_path then Some followers_doc
       else if str_eqb path followings_path then Some followings_doc
       else None;
     failure := fun _ => FileNotFoundError;
     wakes := fun _ _ => true |}.

(** No file at all; every pause is carried out. *)
Definition quiet_world : world :=
  {| content := fun _ => None;
     failure := fun _ => FileNotFoundError;
     wakes := fun _ _ => true |}.

(** The followers file holds [followers_doc]; the followings path names a
    directory. *)
Definition followings_a_directory (followers_doc : str) : world :=
  {| content := fun path =>
       if str_eqb path followers_path then Some followers_doc else None;
     failure := fun path =>
       if str_eqb path followings_path then IsADirectoryError
       else FileNotFoundError;
     wakes := fun _ _ => true |}.

Definition default_args : Args :=
  {| followers := Some followers_path;
     followings := Some followings_path;
     num_tabs := 5;
     duration := 30 |}.

(** A document that [splitlines] leaves in one piece. *)
Definition single_line (doc : str) : Prop := splitlines doc = [doc].

(** A path argument that is empty or unset. *)
Definition missing (x : option str) : Prop := x = None \/ x = Some [].

(** An event that opens a tab or sleeps. *)
Definition opens_or_sleeps (e : event) : Prop :=
  match e with
  | OpenNewTab _ | Sleep _ => True
  | Print _ | ReadFile _ => False
  end.

(** The sequences of difflib's documentation: a string seen as the
    sequence of its characters, and the decimal numerals of a range. *)
Definition letters (s : string) : list str := map (fun c => [c]) (of_string s).

Definition numerals (first count : nat) : list str := map str_of_nat (seq first count).

Definition doc_a : list str := numerals 1 39.

Definition doc_b : list str :=
  Difflib.slice doc_a 0 8 ++ [of_string "i"]
  ++ Difflib.slice doc_a 8 19 ++ [of_string "20x"]
  ++ Difflib.slice doc_a 20 22
  ++ Difflib.slice doc_a 27 34 ++ [of_string "35y"]
  ++ Difflib.slice doc_a 35 39.

(** ** What the specification says of the batch opener *)

(** [ceil(L / n)] for a positive [n]. *)
Definition ceil_div (L n : Z) : Z := ((L + n - 1) / n)%Z.

(** The [k]-th run of [n] consecutive links. *)
Definition chunk (links : list str) (n k : nat) : list str :=
  firstn n (skipn (k * n) links).


Definition link_events (url : str) : list event := [Print url; OpenNewTab url].

(** What is done for the [k]-th chunk: the announcement with the chunk's
    first index, the links one after the other, the pause. *)
Definition chunk_events (n d : Z) (k : nat) (c : list str) : list event :=
  Print (msg_chunk (Z.of_nat k * n)) :: flat_map link_events c ++ [Sleep d].

(** The URLs of the browser-open calls of a trace, in order. *)
Definition opened (tr : list event) : list str :=
  flat_map (fun e => match e with OpenNewTab url => [url] | _ => [] end) tr.


(** ** Notions used to analyse the matcher

    The positions of the line [x] in [l], counted from [o]. *)
Fixpoint positions_from (o : nat) (x : Difflib.line) (l : list Difflib.line) : list nat :=
  match l with
  | [] => []
  | y :: l' =>
      if str_eqb y x then o :: positions_from (S o) x l'
      else positions_from (S o) x l'
  end.

(** A line that [chain_b] drops from [b2j] for being too frequent. *)
Definition popular (b : list Difflib.line) (x : Difflib.line) : bool :=
  Difflib.is_popular (length b) (positions_from 0 x b).

(** Cell [(i, j)] of the comparison of [a] with [b] is one the matcher
    sees: the lines are equal and not popular. *)
Definition good (a b : list Difflib.line) (i j : nat) : bool :=
  (i <? length a) && (j <? length b)
  && str_eqb (nth i a []) (nth j b []) && negb (popular b (nth j b [])).

(** Length of the run of good cells that ends, going down the diagonal, in
    cell [(i, j)]. *)
Fixpoint run_length (a b : list Difflib.line) (i j : nat) {struct i} : nat :=
  if good a b i j then
    S (match i, j with
       | S i', S j' => run_length a b i' j'
       | _, _ => 0
       end)
  else 0.

(** The run that ends just before cell [(i, j)]. *)
Definition run_pred (a b : list Difflib.line) (i j : nat) : nat :=
  match i, j with
  | S i', S j' => run_length a b i' j'
  | _, _ => 0
  end.

(** The state of the scan of a sequence against itself before row [i]:
    [j2len] holds the runs that end in row [i - 1], and the best block lies
    on the diagonal, within the rows done, and is no shorter than any
    diagonal run seen. *)
Definition scanned (L : list Difflib.line) (i : nat)
    (st : Difflib.dict_j2len * Difflib.Match) : Prop :=
  (forall j, Difflib.j2len_get (fst st) j =
             match i with O => 0 | S i' => run_length L L i' j end)
  /\ exists p bs,
       snd st = (p, p, bs) /\ p + bs <= i /\
       (forall i', i' < i -> run_length L L i' i' <= bs).

(** A block that lies inside the window it was looked for in. *)
Definition block_in (w : Difflib.window) (m : Difflib.Match) : Prop :=
  let '(alo, ahi, blo, bhi) := w in
  let '(i, j, k) := m in
  alo <= i /\ i + k <= ahi /\ blo <= j /\ j + k <= bhi.

Definition window_ok (w : Difflib.window) : Prop :=
  let '(alo, ahi, blo, bhi) := w in alo <= ahi /\ blo <= bhi.

(** What bounds the turns of the loop of [get_matching_blocks]. *)
Definition window_weight (w : Difflib.window) : nat :=
  let '(alo, ahi, blo, bhi) := w in (ahi - alo) + (bhi - blo) + 1.

Definition queue_weight (queue : list Difflib.window) : nat :=
  list_sum (map window_weight queue).

(** The entries of [j2len] while row [i] of a window is scanned. *)
Definition j2len_bounded (blo rows : nat) (d : Difflib.dict_j2len) : Prop :=
  forall j, Difflib.j2len_get d j <= rows /\ Difflib.j2len_get d j <= S j - blo.

Definition keys (d : Difflib.dict_b2j) : list Difflib.line := map fst d.

(** ** What the specification says of the link extractor

    The attribute pattern, in the specification's words: [href=] followed,
    between double quotes, by an http or https URL.  A URL here is the
    scheme, [://], and one or more characters other than the double quote. *)

Definition http_url (url : str) : Prop :=
  exists body,
    body <> [] /\ ~ In quote body /\
    (url = of_string "http://" ++ body \/ url = of_string "https://" ++ body).

(** The attribute for [url] stands in [text] between [pre] and [post]. *)
Definition href_at (text pre url post : str) : Prop :=
  text = pre ++ href url ++ post /\ http_url url.

(** [Found text urls]: [urls] are the URLs of all the attributes met when
    reading [text] from the left, each search starting behind the previous
    attribute; in order of appearance, a URL met twice listed twice. *)
Inductive Found : str -> list str -> Prop :=
| Found_none text :
    (forall pre url post, ~ href_at text pre url post) ->
    Found text []
| Found_next text pre url post urls :
    href_at text pre url post ->
    (forall pre' url' post', href_at text pre' url' post' -> length pre <= length pre') ->
    Found post urls ->
    Found text (url :: urls).

(** [p] occurs in [s] as a substring. *)
Definition substring (p s : str) : Prop :=
  exists pre post, s = pre ++ p ++ post.

(** ** Notions for the soundness of the matcher *)

(** The block names two equal stretches of [a] and [b]. *)
Definition real_match (a b : list str) (m : Difflib.Match) : Prop :=
  let '(i, j, k) := m in
  i + k <= length a /\ j + k <= length b /\
  forall t, t < k -> nth (i + t) a [] = nth (j + t) b [].

(** [k] equal lines end in cell [(i, j)]. *)
Definition run_ends (a b : list str) (i j k : nat) : Prop :=
  k <= S i /\ k <= S j /\
  forall t, t < k -> nth (i - t) a [] = nth (j - t) b [].

(** Every entry of [j2len], before row [i], is a run that ends in the row
    above. *)
Definition j2len_real (a b : list str) (i : nat) (d : Difflib.dict_j2len) : Prop :=
  forall j,
    Difflib.j2len_get d j = 0 \/
    exists i0, i = S i0 /\ run_ends a b i0 j (Difflib.j2len_get d j).

(** A window that lies inside the two sequences. *)
Definition window_in (a b : list str) (w : Difflib.window) : Prop :=
  let '(alo, ahi, blo, bhi) := w in
  alo <= ahi <= length a /\ blo <= bhi <= length b.

(** What [b2j] may hold: positions of the line asked for. *)
Definition b2j_sound (b : list str) (b2j : Difflib.dict_b2j) : Prop :=
  forall x j, In j (Difflib.b2j_get b2j x) -> j < length b /\ nth j b [] = x.

Definition tag_of (c : Difflib.opcode) : Difflib.tag :=
  let '(t, _, _, _, _) := c in t.

Definition size_of (m : Difflib.Match) : nat := let '(_, _, k) := m in k.

(** ** Notions for [main] *)

(** Both paths are given and both files can be read, with these texts. *)
Definition readable (fs : filesystem) (args : Args)
    (followers_doc followings_doc : str) : Prop :=
  truthy (followers args) = true /\
  truthy (followings args) = true /\
  fs (path_of (followers args)) = Some followers_doc /\
  fs (path_of (followings args)) = Some followings_doc.

(** What every run that gets as far as the count line starts with. *)
Definition prologue (args : Args) (count : nat) : list event :=
  [ReadFile (path_of (followers args)); ReadFile (path_of (followings args));
   Print (msg_count count)].

(** ** Notions for [clean_html] *)

(** [t] holds a tag: the character [LT], one or more characters other than
    [GT], and [GT]. *)
Definition has_tag (t : str) : Prop :=
  exists pre body post,
    t = pre ++ [Sub.LT] ++ body ++ [Sub.GT] ++ post /\
    body <> [] /\ ~ In Sub.GT body.

(** Every [LT] of [t] is directly followed by [GT] or has no [GT] behind
    it. *)
Definition no_open_tag (t : str) : Prop :=
  forall pre post,
    t = pre ++ Sub.LT :: post ->
    hd_error post = Some Sub.GT \/ ~ In Sub.GT post.

(** The only white space in [t] is the space character. *)
Definition plain_spaces (t : str) : Prop :=
  forall c, In c t -> Sub.is_space c = true -> c = Sub.SPACE.

(** No two white space characters of [t] are neighbours. *)
Definition single_spaced (t : str) : Prop :=
  forall pre c d post,
    t = pre ++ c :: d :: post ->
    Sub.is_space c = true -> Sub.is_space d = true -> False.

(** [t] neither starts nor ends with white space. *)
Definition trimmed (t : str) : Prop :=
  (forall c r, t = c :: r -> Sub.is_space c = false) /\
  (forall r c, t = r ++ [c] -> Sub.is_space c = false).

(** What the second substitution of [clean_html] does to a text. *)
Definition spaces_collapsed (s t : str) : Prop :=
  plain_spaces t /\ single_spaced t /\
  (forall c r, t = c :: r -> Sub.is_space c = true ->
               exists c' r', s = c' :: r' /\ Sub.is_space c' = true) /\
  (forall x, Sub.is_space x = false -> In x t -> In x s) /\
  (forall r, s = Sub.GT :: r -> exists r', t = Sub.GT :: r') /\
  (no_open_tag s -> no_open_tag t).

(** A matcher whose matches are non-empty prefixes. *)
Definition consumes (m : str -> option str) : Prop :=
  forall s rest, m s = Some rest -> exists p, p <> [] /\ s = p ++ rest.

(** * Properties *)

(** ** The models on documented examples

    The examples of the docstrings of [SequenceMatcher], evaluated. *)

Example find_longest_match_doc :
  let a := letters " abcd" in
  let b := letters "abcd abcd" in
  Difflib.find_longest_match a b (Difflib.chain_b b) 0 5 0 9 = (0, 4, 5).
Proof. vm_compute. reflexivity. Qed.

Example find_longest_match_none_doc :
  let a := letters "ab" in
  let b := letters "c" in
  Difflib.find_longest_match a b (Difflib.chain_b b) 0 2 0 1 = (0, 0, 0).
Proof. vm_compute. reflexivity. Qed.

Example get_matching_blocks_doc :
  Difflib.get_matching_blocks (letters "abxcd") (letters "abcd")
  = [(0, 0, 2); (3, 2, 2); (5, 4, 0)].
Proof. vm_compute. reflexivity. Qed.

Example get_opcodes_doc :
  Difflib.get_opcodes (letters "qabxcd") (letters "abycdf")
  = [(Difflib.Delete, 0, 1, 0, 0); (Difflib.Equal, 1, 3, 0, 2);
     (Difflib.Replace, 3, 4, 2, 3); (Difflib.Equal, 4, 6, 3, 5);
     (Difflib.Insert, 6, 6, 5, 6)].
Proof. vm_compute. reflexivity. Qed.

Example get_grouped_opcodes_doc :
  Difflib.get_grouped_opcodes doc_a doc_b 3
  = [[(Difflib.Equal, 5, 8, 5, 8); (Difflib.Insert, 8, 8, 8, 9);
      (Difflib.Equal, 8, 11, 9, 12)];
     [(Difflib.Equal, 16, 19, 17, 20); (Difflib.Replace, 19, 20, 20, 21);
      (Difflib.Equal, 20, 22, 21, 23); (Difflib.Delete, 22, 27, 23, 23);
      (Difflib.Equal, 27, 30, 23, 26)];
     [(Difflib.Equal, 31, 34, 27, 30); (Difflib.Replace, 34, 35, 30, 31);
      (Difflib.Equal, 35, 38, 31, 34)]].
Proof. vm_compute. reflexivity. Qed.

Example splitlines_keepends :
  splitlines (of_string "ab" ++ [CR; LF] ++ of_string "c" ++ [LF; CR] ++ of_string "d")
  = [of_string "ab" ++ [CR; LF]; of_string "c" ++ [LF]; [CR]; of_string "d"].
Proof. vm_compute. reflexivity. Qed.

Example extract_links_keeps_duplicates :
  extract_links
    (of_string "<a " ++ href ex_alice ++ of_string "> <a " ++ href ex_bob
     ++ of_string "></a>" ++ href ex_alice)
  = [ex_alice; ex_bob; ex_alice].
Proof. vm_compute. reflexivity. Qed.

(** ** Strings *)

Lemma str_eqb_eq (s t : str) : str_eqb s t = true <-> s = t.
Proof.
  revert t. induction s as [|c s IH]; intros [|d t]; simpl; split; intro H;
    try reflexivity; try discriminate.
  - apply andb_prop in H. destruct H as [Hc Hs].
    apply N.eqb_eq in Hc. apply IH in Hs. now subst.
  - injection H as -> ->. rewrite N.eqb_refl. simpl. now apply IH.
Qed.

Lemma str_eqb_refl (s : str) : str_eqb s s = true.
Proof. now apply str_eqb_eq. Qed.

Lemma str_eqb_spec (s t : str) : reflect (s = t) (str_eqb s t).
Proof. apply iff_reflect. symmetry. apply str_eqb_eq. Qed.

Lemma mem_In (x : str) (l : list str) : mem x l = true <-> In x l.
Proof.
  unfold mem. rewrite existsb_exists. split.
  - intros (y & Hy & E). apply str_eqb_eq in E. now subst.
  - intro H. exists x. split; [assumption | apply str_eqb_refl].
Qed.

Lemma strip_prefix_spec (p s r : str) : strip_prefix p s = Some r <-> s = p ++ r.
Proof.
  revert s. induction p as [|c p IH]; intros s; simpl.
  - split; [intros [= ->] | intros ->]; reflexivity.
  - destruct s as [|d s].
    + split; discriminate.
    + destruct (N.eqb_spec c d) as [->|Hne].
      * rewrite IH. split; [intros -> | intros [= ->]]; reflexivity.
      * split; [discriminate | intros [= E _]; now elim Hne].
Qed.

Lemma startswith_spec (p s : str) : startswith p s = true <-> exists r, s = p ++ r.
Proof.
  unfold startswith. destruct (strip_prefix p s) as [r|] eqn:E.
  - apply strip_prefix_spec in E. split; [exists r; assumption | reflexivity].
  - split; [discriminate|]. intros [r Hr]. apply strip_prefix_spec in Hr. congruence.
Qed.

Lemma contains_substring (p s : str) : contains p s = true <-> substring p s.
Proof.
  unfold substring. induction s as [|c s IH].
  - simpl. rewrite orb_false_r, startswith_spec. split.
    + intros [r Hr]. exists [], r. assumption.
    + intros (pre & post & H). destruct pre; [|discriminate]. exists post. assumption.
  - simpl. rewrite orb_true_iff, startswith_spec, IH. split.
    + intros [[r Hr] | (pre & post & H)].
      * exists [], r. assumption.
      * exists (c :: pre), post. now rewrite H.
    + intros (pre & post & H). destruct pre as [|c' pre].
      * left. exists post. assumption.
      * right. injection H as -> H. exists pre, post. assumption.
Qed.

(** ** The pattern matcher against the pattern's meaning *)

Lemma span_not_quote_app (body rest : str) :
  ~ In quote body ->
  Re.span_not_quote (body ++ quote :: rest) = (body, quote :: rest).
Proof.
  induction body as [|c body IH]; intro H.
  - reflexivity.
  - simpl. destruct (N.eqb_spec c quote) as [->|_].
    + elim H. now left.
    + rewrite IH; [reflexivity|]. intro Hin. apply H. now right.
Qed.

Lemma span_not_quote_inv (s run rest : str) :
  Re.span_not_quote s = (run, rest) ->
  s = run ++ rest /\ ~ In quote run /\ (rest = [] \/ exists r, rest = quote :: r).
Proof.
  revert run rest. induction s as [|c s IH]; intros run rest; simpl.
  - intros [= <- <-]. repeat split; auto.
  - destruct (N.eqb_spec c quote) as [->|Hne].
    + intros [= <- <-]. repeat split; auto. right. now exists s.
    + destruct (Re.span_not_quote s) as [run' rest'].
      intros [= <- <-]. destruct (IH _ _ eq_refl) as (-> & Hnot & Hrest).
      repeat split; auto. intros [E|Hin]; [now elim Hne | now apply Hnot].
Qed.

Lemma match_tail_spec (scheme s url rest : str) :
  Re.match_tail scheme s = Some (url, rest) <->
  exists body,
    body <> [] /\ ~ In quote body /\
    s = Re.lit_sep ++ body ++ quote :: rest /\ url = scheme ++ Re.lit_sep ++ body.
Proof.
  unfold Re.match_tail. split.
  - destruct (strip_prefix Re.lit_sep s) as [s1|] eqn:E1; [|discriminate].
    apply strip_prefix_spec in E1.
    destruct (Re.span_not_quote s1) as [run rest'] eqn:E2.
    apply span_not_quote_inv in E2. destruct E2 as (-> & Hnot & _).
    destruct run as [|c run]; [discriminate|].
    destruct rest' as [|d rest']; [discriminate|].
    destruct (N.eqb_spec d quote) as [->|_]; [|discriminate].
    intros [= <- <-]. exists (c :: run). repeat split; auto. discriminate.
  - intros (body & Hne & Hnot & -> & ->).
    replace (strip_prefix Re.lit_sep (Re.lit_sep ++ body ++ quote :: rest))
      with (Some (body ++ quote :: rest)) by (symmetry; now apply strip_prefix_spec).
    rewrite span_not_quote_app by assumption.
    destruct body as [|c body]; [now elim Hne|].
    now rewrite N.eqb_refl.
Qed.

Lemma http_url_shape (url : str) :
  http_url url <->
  exists body, body <> [] /\ ~ In quote body /\
    (url = Re.lit_http ++ Re.lit_sep ++ body \/
     url = (Re.lit_http ++ Re.lit_s) ++ Re.lit_sep ++ body).
Proof. reflexivity. Qed.

Lemma match_href_sound (s url rest : str) :
  Re.match_href s = Some (url, rest) -> s = href url ++ rest /\ http_url url.
Proof.
  unfold Re.match_href.
  destruct (strip_prefix Re.lit_href s) as [s1|] eqn:E1; [|discriminate].
  apply strip_prefix_spec in E1.
  destruct (strip_prefix Re.lit_http s1) as [s2|] eqn:E2; [|discriminate].
  apply strip_prefix_spec in E2. subst s s1.
  destruct (match strip_prefix Re.lit_s s2 with
            | Some s3 => Re.match_tail (Re.lit_http ++ Re.lit_s) s3
            | None => None end) as [r|] eqn:E3.
  - intros [= ->].
    destruct (strip_prefix Re.lit_s s2) as [s3|] eqn:E4; [|discriminate].
    apply strip_prefix_spec in E4. apply match_tail_spec in E3.
    destruct E3 as (body & Hne & Hnot & -> & ->). subst s2. split.
    + unfold href. cbn. repeat (rewrite <- ?app_assoc; cbn). reflexivity.
    + apply http_url_shape. exists body. auto.
  - intro E. apply match_tail_spec in E.
    destruct E as (body & Hne & Hnot & -> & ->). split.
    + unfold href. cbn. repeat (rewrite <- ?app_assoc; cbn). reflexivity.
    + apply http_url_shape. exists body. auto.
Qed.

Lemma match_href_complete (url rest : str) :
  http_url url -> Re.match_href (href url ++ rest) = Some (url, rest).
Proof.
  intros (body & Hne & Hnot & [-> | ->]).
  - assert (E : Re.match_tail Re.lit_http (Re.lit_sep ++ body ++ quote :: rest)
                = Some (Re.lit_http ++ Re.lit_sep ++ body, rest))
      by (apply match_tail_spec; exists body; auto).
    unfold href. cbn. repeat (rewrite <- ?app_assoc; cbn).
    cbn in E. rewrite E. reflexivity.
  - assert (E : Re.match_tail (Re.lit_http ++ Re.lit_s) (Re.lit_sep ++ body ++ quote :: rest)
                = Some ((Re.lit_http ++ Re.lit_s) ++ Re.lit_sep ++ body, rest))
      by (apply match_tail_spec; exists body; auto).
    unfold href. cbn. repeat (rewrite <- ?app_assoc; cbn).
    cbn in E. rewrite E. reflexivity.
Qed.

Lemma match_href_spec (s url rest : str) :
  Re.match_href s = Some (url, rest) <-> s = href url ++ rest /\ http_url url.
Proof.
  split.
  - apply match_href_sound.
  - intros [-> H]. now apply match_href_complete.
Qed.

(** ** [re.findall] *)

Lemma findall_skip (m rest : str) :
  Re.findall_from (length m) (m ++ rest) = Re.findall_from 0 rest.
Proof. induction m as [|c m IH]; [reflexivity | exact IH]. Qed.

Lemma href_length (url : str) : length (href url) = S (length url + 6).
Proof. unfold href. cbn. rewrite length_app. cbn. lia. Qed.

Lemma findall_match (s url rest : str) :
  Re.match_href s = Some (url, rest) ->
  Re.findall_from 0 s = url :: Re.findall_from 0 rest.
Proof.
  intro E. pose proof E as E'. apply match_href_sound in E'. destruct E' as [-> _].
  remember (href url) as m eqn:Hm.
  destruct m as [|c m]; [apply (f_equal (@length _)) in Hm; rewrite href_length in Hm; discriminate|].
  change ((c :: m) ++ rest) with (c :: (m ++ rest)) in *.
  cbn [Re.findall_from]. rewrite E. f_equal.
  unfold Re.match_length. cbn [length]. rewrite length_app.
  replace (S (length m + length rest) - length rest - 1) with (length m) by lia.
  apply findall_skip.
Qed.

Lemma findall_no_match (c : char) (s : str) :
  Re.match_href (c :: s) = None ->
  Re.findall_from 0 (c :: s) = Re.findall_from 0 s.
Proof. intro E. cbn [Re.findall_from]. now rewrite E. Qed.

Lemma href_at_nil (pre url post : str) : ~ href_at [] pre url post.
Proof.
  intros [H _]. apply (f_equal (@length _)) in H.
  rewrite !length_app, href_length in H. cbn in H. lia.
Qed.

Lemma href_at_head (text url post : str) :
  href_at text [] url post <-> Re.match_href text = Some (url, post).
Proof. unfold href_at. cbn [app]. symmetry. apply match_href_spec. Qed.

Lemma href_at_cons (c : char) (text pre url post : str) :
  href_at (c :: text) (c :: pre) url post <-> href_at text pre url post.
Proof.
  unfold href_at. cbn [app]. split; intros [H U]; split; auto; congruence.
Qed.

Lemma href_at_cons_inv (c : char) (text pre url post : str) :
  href_at (c :: text) pre url post ->
  pre = [] \/ exists pre', pre = c :: pre' /\ href_at text pre' url post.
Proof.
  destruct pre as [|c' pre]; [now left|]. intros [H U]. right.
  cbn [app] in H. injection H as <- H. exists pre. repeat split; auto.
Qed.

Lemma Found_shift (c : char) (s : str) (urls : list str) :
  Re.match_href (c :: s) = None -> Found s urls -> Found (c :: s) urls.
Proof.
  intros E HF. inversion HF as [t Hnone | t pre url post urls' Hat Hleft Hrest]; subst.
  - apply Found_none. intros pre url post Hat.
    destruct (href_at_cons_inv Hat) as [-> | (pre' & -> & Hat')].
    + apply href_at_head in Hat. congruence.
    + exact (Hnone _ _ _ Hat').
  - apply Found_next with (pre := c :: pre) (post := post).
    + now apply href_at_cons.
    + intros pre' url' post' Hat'.
      destruct (href_at_cons_inv Hat') as [-> | (pre'' & -> & Hat'')].
      * apply href_at_head in Hat'. congruence.
      * cbn [length]. apply le_n_S. exact (Hleft _ _ _ Hat'').
    + assumption.
Qed.

Lemma match_rest_shorter (s url rest : str) :
  Re.match_href s = Some (url, rest) -> length rest < length s.
Proof.
  intro E. apply match_href_sound in E. destruct E as [-> _].
  rewrite length_app, href_length. lia.
Qed.

Lemma findall_Found (text : str) : Found text (Re.findall text).
Proof.
  unfold Re.findall.
  remember (length text) as n eqn:Hn.
  assert (Hle : length text <= n) by lia. clear Hn.
  revert text Hle. induction n as [|n IH]; intros text Hle.
  - destruct text; [|cbn in Hle; lia].
    apply Found_none. intros pre url post. apply href_at_nil.
  - destruct text as [|c s].
    + apply Found_none. intros pre url post. apply href_at_nil.
    + destruct (Re.match_href (c :: s)) as [[url rest]|] eqn:E.
      * rewrite (findall_match _ E).
        apply Found_next with (pre := []) (post := rest).
        -- now apply href_at_head.
        -- intros. cbn. lia.
        -- apply IH. apply match_rest_shorter in E. cbn in *. lia.
      * rewrite (findall_no_match _ _ E). apply Found_shift; [assumption|].
        apply IH. cbn in Hle. lia.
Qed.

Lemma findall_none (text : str) :
  (forall pre url post, ~ href_at text pre url post) -> Re.findall_from 0 text = [].
Proof.
  induction text as [|c s IH]; intro Hnone; [reflexivity|].
  destruct (Re.match_href (c :: s)) as [[url rest]|] eqn:E.
  - apply href_at_head in E. now elim (Hnone _ _ _ E).
  - rewrite (findall_no_match _ _ E). apply IH.
    intros pre url post Hat. apply (Hnone (c :: pre) url post). now apply href_at_cons.
Qed.

Lemma findall_leftmost (pre url post : str) :
  href_at (pre ++ href url ++ post) pre url post ->
  (forall pre' url' post',
     href_at (pre ++ href url ++ post) pre' url' post' -> length pre <= length pre') ->
  Re.findall_from 0 (pre ++ href url ++ post) = url :: Re.findall_from 0 post.
Proof.
  induction pre as [|c pre IH]; intros Hat Hleft.
  - cbn [app]. apply findall_match. now apply href_at_head.
  - cbn [app] in *.
    destruct (Re.match_href (c :: pre ++ href url ++ post)) as [[url' rest']|] eqn:E.
    + apply href_at_head in E. apply Hleft in E. cbn in E. lia.
    + rewrite (findall_no_match _ _ E). apply IH.
      * now apply href_at_cons in Hat.
      * intros pre' url' post' Hat'.
        apply (href_at_cons c) in Hat'. apply Hleft in Hat'. cbn in Hat'. lia.
Qed.

Lemma Found_findall (text : str) (urls : list str) :
  Found text urls -> urls = Re.findall text.
Proof.
  unfold Re.findall. induction 1 as [text Hnone | text pre url post urls Hat Hleft _ IH].
  - symmetry. now apply findall_none.
  - pose proof Hat as [-> _]. rewrite findall_leftmost by assumption. now f_equal.
Qed.

(** C5. For every text, [extract_links] returns exactly the URLs of the
    [href] attributes met when reading the text from the left, in order of
    appearance and with repetitions kept: the list the specification
    describes ([Found]) exists, is unique, and is the one returned. *)
Theorem extract_links_all_in_order (text : str) (urls : list str) :
  Found text urls <-> extract_links text = urls.
Proof.
  unfold extract_links. split.
  - intro H. symmetry. now apply Found_findall.
  - intros <-. apply findall_Found.
Qed.

(** ** The filter of [find_and_extract_diff_links] *)

Lemma result_list_In (followers_doc followings_doc link : str) :
  In link (result_list followers_doc followings_doc) <->
  In link (extract_links
             (join (Difflib.unified_diff (splitlines followers_doc)
                                         (splitlines followings_doc))))
  /\ substring instagram link
  /\ ~ In link (extract_links followers_doc).
Proof.
  unfold result_list, find_and_extract_diff_links.
  rewrite filter_In, andb_true_iff, negb_true_iff, contains_substring.
  rewrite <- not_true_iff_false, mem_In. tauto.
Qed.

(** C9. Every link of the list [main] gets from
    [find_and_extract_diff_links] contains the Instagram prefix as a
    substring and is not among the links extracted from the whole followers
    document. *)
Theorem result_links_instagram_not_followers
    (followers_doc followings_doc link : str) :
  In link (result_list followers_doc followings_doc) ->
  substring instagram link /\ ~ In link (extract_links followers_doc).
Proof. intro H. apply result_list_In in H. tauto. Qed.

Lemma result_links_instagram_not_followers_witness :
  In ex_alice (result_list [] doc_alice) /\
  substring instagram ex_alice /\ ~ In ex_alice (extract_links []).
Proof.
  assert (H : In ex_alice (result_list [] doc_alice)) by (vm_compute; now left).
  split; [exact H|].
  exact (result_links_instagram_not_followers [] doc_alice ex_alice H).
Defined.

(** C1, as the code has it.  [main] hands the followings document to the
    parameter named [followers] and the followers document to the parameter
    named [followings], so the links filtered out are those of the followers
    document: a link present in the followers document's full link set never
    appears in the Result List, whatever the diff holds. *)
Theorem followers_links_never_in_result
    (followers_doc followings_doc link : str) :
  In link (extract_links followers_doc) ->
  ~ In link (result_list followers_doc followings_doc).
Proof. intros H Hin. apply result_list_In in Hin. tauto. Qed.

Lemma followers_links_never_in_result_witness :
  In ex_alice (extract_links doc_alice) /\
  ~ In ex_alice (result_list doc_alice doc_alice_bob).
Proof.
  assert (H : In ex_alice (extract_links doc_alice)) by (vm_compute; now left).
  split; [exact H|].
  exact (followers_links_never_in_result doc_alice doc_alice_bob ex_alice H).
Defined.

(** C1 as stated fails: with an empty followers document and a followings
    document holding one link, that link of the followings document is in the
    Result List. *)
Lemma followings_link_in_result :
  In ex_alice (extract_links doc_alice) /\ In ex_alice (result_list [] doc_alice).
Proof. split; vm_compute; now left. Qed.

(** ** Diffs against an empty document *)

Lemma unified_diff_all_added (d : str) :
  Difflib.unified_diff [] [d] =
  [of_string "--- " ++ [LF]; of_string "+++ " ++ [LF];
   of_string "@@ -0,0 +1 @@" ++ [LF]; of_string "+" ++ d].
Proof. reflexivity. Qed.

Lemma unified_diff_all_removed (d : str) :
  Difflib.unified_diff [d] [] =
  [of_string "--- " ++ [LF]; of_string "+++ " ++ [LF];
   of_string "@@ -1 +0,0 @@" ++ [LF]; of_string "-" ++ d].
Proof. reflexivity. Qed.

Lemma findall_other_char (c : char) (s : str) :
  c <> 104%N -> Re.findall_from 0 (c :: s) = Re.findall_from 0 s.
Proof.
  intro H. apply findall_no_match. unfold Re.match_href.
  destruct (strip_prefix Re.lit_href (c :: s)) as [r|] eqn:E; [|reflexivity].
  apply strip_prefix_spec in E. injection E as E _. now elim H.
Qed.

Lemma extract_links_all_added (d : str) :
  extract_links (join (Difflib.unified_diff [] [d])) = extract_links d.
Proof.
  rewrite unified_diff_all_added. unfold extract_links, Re.findall, join.
  cbn [concat of_string app char_of_ascii]. rewrite app_nil_r.
  repeat (rewrite findall_other_char by discriminate). reflexivity.
Qed.

Lemma extract_links_all_removed (d : str) :
  extract_links (join (Difflib.unified_diff [d] [])) = extract_links d.
Proof.
  rewrite unified_diff_all_removed. unfold extract_links, Re.findall, join.
  cbn [concat of_string app char_of_ascii]. rewrite app_nil_r.
  repeat (rewrite findall_other_char by discriminate). reflexivity.
Qed.

(** C3, as the code has it.  The links that survive are those of the
    followings document that the followers document lacks.  For a one-line
    document whose only link is an Instagram link: against an empty followers
    document the Result List is exactly that link when the document is the
    followings one, and the Result List is empty when the document is the
    followers one and the followings document is empty. *)
Theorem one_link_against_empty (doc link : str) :
  single_line doc ->
  extract_links doc = [link] ->
  substring instagram link ->
  result_list [] doc = [link] /\ result_list doc [] = [].
Proof.
  unfold single_line, result_list, find_and_extract_diff_links.
  intros Hline Hlinks Hinsta. apply contains_substring in Hinsta.
  rewrite Hline. change (splitlines []) with (@nil str).
  rewrite extract_links_all_added, extract_links_all_removed, Hlinks.
  cbn [filter]. rewrite Hinsta. split.
  - reflexivity.
  - unfold mem. cbn [existsb]. rewrite str_eqb_refl. reflexivity.
Qed.

Lemma one_link_against_empty_witness :
  result_list [] doc_bob = [ex_bob] /\ result_list doc_bob [] = [].
Proof.
  apply (@one_link_against_empty doc_bob ex_bob).
  - reflexivity.
  - vm_compute. reflexivity.
  - exists [], (of_string "bob/"). reflexivity.
Defined.

(** C3 as stated fails: followings empty, followers holding exactly one
    Instagram link, and the Result List does not hold that link. *)
Lemma one_follower_link_not_in_result :
  extract_links doc_bob = [ex_bob] /\
  substring instagram ex_bob /\
  result_list doc_bob [] <> [ex_bob].
Proof.
  split; [vm_compute; reflexivity|].
  split; [exists [], (of_string "bob/"); reflexivity|].
  vm_compute. discriminate.
Qed.

(** C2 as stated fails: with the link of alice in the followings document
    and the links of alice and bob in the followers document, the Result List
    is empty, not the link of bob, and the count printed is 0. *)
Lemma other_way_round_alice_bob_fails :
  In ex_alice (extract_links doc_alice) /\
  In ex_alice (extract_links doc_alice_bob) /\
  In ex_bob (extract_links doc_alice_bob) /\
  result_list doc_alice_bob doc_alice <> [ex_bob] /\
  main (two_files doc_alice_bob doc_alice) default_args =
    ([ReadFile followers_path; ReadFile followings_path;
      Print (msg_count 0); Print msg_none], Ok tt).
Proof.
  split; [vm_compute; auto|].
  split; [vm_compute; auto|].
  split; [vm_compute; auto|].
  split; [vm_compute; discriminate|].
  vm_compute. reflexivity.
Qed.

(** C2, as the code has it: with the two documents in the other roles (the
    link of alice in the followers document, the links of alice and bob in
    the followings document, one attribute per line) the Result List is
    exactly the link of bob, and the count printed is 1. *)
Theorem alice_bob_example :
  result_list doc_alice doc_alice_bob = [ex_bob] /\
  main (two_files doc_alice doc_alice_bob) default_args =
    ([ReadFile followers_path; ReadFile followings_path;
      Print (msg_count 1);
      Print (msg_chunk 0); Print ex_bob; OpenNewTab ex_bob; Sleep 30], Ok tt) /\
  msg_count 1 = of_string "Number of non-followers found: 1".
Proof. repeat split; vm_compute; reflexivity. Qed.

(** ** [main]: the paths given and the empty Result List *)

Lemma truthy_missing (x : option str) : truthy x = false <-> missing x.
Proof.
  unfold missing. destruct x as [[|c p]|]; cbn; split; intro H;
    try reflexivity; try discriminate; auto; destruct H; discriminate.
Qed.

(** C8. When the followers path or the followings path is empty or unset,
    [main] prints one message and returns normally: it reads no file, opens
    no tab, raises nothing. *)
Theorem main_missing_path (fs : filesystem) (args : Args) :
  missing (followers args) \/ missing (followings args) ->
  main fs args = ([Print msg_missing], Ok tt).
Proof.
  intro H. unfold main.
  destruct H as [H|H]; apply truthy_missing in H; rewrite H; cbn.
  - reflexivity.
  - now rewrite orb_true_r.
Qed.

Lemma main_missing_path_witness :
  main (two_files doc_alice doc_alice_bob)
       {| followers := Some followers_path; followings := None;
          num_tabs := 5; duration := 30 |}
  = ([Print msg_missing], Ok tt).
Proof.
  apply main_missing_path. right. left. reflexivity.
Defined.

Lemma main_reads (fs : filesystem) (args : Args) (followers_doc followings_doc : str) :
  truthy (followers args) = true ->
  truthy (followings args) = true ->
  fs (path_of (followers args)) = Some followers_doc ->
  fs (path_of (followings args)) = Some followings_doc ->
  main fs args =
    (emit (ReadFile (path_of (followers args))) ;;
     emit (ReadFile (path_of (followings args))) ;;
     print (msg_count (length (result_list followers_doc followings_doc))) ;;
     match result_list followers_doc followings_doc with
     | _ :: _ =>
         open_in_batches fs (result_list followers_doc followings_doc)
                         (num_tabs args) (duration args)
     | [] => print msg_none
     end).
Proof.
  intros T1 T2 F1 F2. unfold main, read_file. rewrite T1, T2, F1, F2.
  unfold result_list. cbn.
  destruct (find_and_extract_diff_links followings_doc followers_doc); cbn.
  - reflexivity.
  - destruct (open_in_batches _ _ _ _) as [tr [[]|e]]; reflexivity.
Qed.

(** C10. When the Result List computed from the two documents is empty,
    [main] prints the count line and then the message that no new Instagram
    links were found; besides reading the two files it does nothing else: no
    tab is opened and there is no pause. *)
Theorem main_no_links (fs : filesystem) (args : Args) (followers_doc followings_doc : str) :
  truthy (followers args) = true ->
  truthy (followings args) = true ->
  fs (path_of (followers args)) = Some followers_doc ->
  fs (path_of (followings args)) = Some followings_doc ->
  result_list followers_doc followings_doc = [] ->
  main fs args =
    ([ReadFile (path_of (followers args)); ReadFile (path_of (followings args));
      Print (msg_count 0); Print msg_none], Ok tt)
  /\ Forall (fun e => ~ opens_or_sleeps e) (fst (main fs args)).
Proof.
  intros T1 T2 F1 F2 Hnil.
  rewrite (main_reads _ _ T1 T2 F1 F2), Hnil. cbn. split; [reflexivity|].
  repeat constructor; intros [].
Qed.

Lemma main_no_links_witness :
  main (two_files doc_alice doc_alice) default_args =
    ([ReadFile followers_path; ReadFile followings_path;
      Print (msg_count 0); Print msg_none], Ok tt)
  /\ Forall (fun e => ~ opens_or_sleeps e)
            (fst (main (two_files doc_alice doc_alice) default_args)).
Proof.
  apply (@main_no_links (two_files doc_alice doc_alice) default_args doc_alice doc_alice);
    vm_compute; reflexivity.
Defined.

(** ** The batch opener *)

Lemma bind_ret (A B : Type) (x : A) (f : A -> IO B) : bind (ret x) f = f x.
Proof. unfold bind, ret. destruct (f x). reflexivity. Qed.

Lemma opened_app (t1 t2 : list event) : opened (t1 ++ t2) = opened t1 ++ opened t2.
Proof. apply flat_map_app. Qed.

Lemma opened_links (c : list str) : opened (flat_map link_events c) = c.
Proof. induction c as [|x c IH]; [reflexivity | cbn; f_equal; exact IH]. Qed.

Lemma opened_chunk_events (n d : Z) (k : nat) (c : list str) :
  opened (chunk_events n d k c) = c.
Proof.
  unfold chunk_events.
  change (opened (Print (msg_chunk (Z.of_nat k * n)) :: flat_map link_events c ++ [Sleep d]))
    with (opened (flat_map link_events c ++ [Sleep d])).
  rewrite opened_app, opened_links. apply app_nil_r.
Qed.

Section Batches.

Variable w : world.
Variable new_links : list str.
Variables n d : Z.
Hypothesis n_pos : (1 <= n)%Z.

Let L := len new_links.

Lemma for_each_ok (A : Type) (l : list A) (body : A -> IO unit) (f : A -> list event) :
  (forall x, body x = (f x, Ok tt)) ->
  for_each l body = (flat_map f l, Ok tt).
Proof.
  intro H. induction l as [|x l IH]; [reflexivity|].
  cbn [for_each flat_map]. unfold bind. now rewrite H, IH.
Qed.


Lemma flat_map_map (A B C : Type) (g : A -> B) (f : B -> list C) (l : list A) :
  flat_map f (map g l) = flat_map (fun x => f (g x)) l.
Proof. induction l as [|x l IH]; [reflexivity | cbn; now rewrite IH]. Qed.

Lemma skipn_cons_nth (A : Type) (l : list A) (s : nat) (dflt : A) :
  s < length l -> skipn s l = nth s l dflt :: skipn (S s) l.
Proof.
  revert s. induction l as [|x l IH]; intros s H; [cbn in H; lia|].
  destruct s as [|s]; [reflexivity|]. cbn in H. apply (IH s). lia.
Qed.

(** The inner loop over [range(index, index + num_tabs)] visits the links
    of one chunk. *)
Lemma inner_loop_events (c s : nat) :
  flat_map
    (fun i => if (i <? L)%Z then link_events (item new_links i) else [])
    (map (fun t => (Z.of_nat s + Z.of_nat t * 1)%Z) (seq 0 c))
  = flat_map link_events (firstn c (skipn s new_links)).
Proof.
  revert s. induction c as [|c IH]; intro s; [reflexivity|].
  cbn [seq map flat_map]. rewrite <- seq_shift, map_map.
  rewrite (map_ext _ (fun t => (Z.of_nat (S s) + Z.of_nat t * 1)%Z)) by (intro; lia).
  rewrite IH. unfold L, len, item.
  replace (Z.of_nat s + Z.of_nat 0 * 1)%Z with (Z.of_nat s) by lia.
  rewrite Nat2Z.id.
  destruct (Z.ltb_spec (Z.of_nat s) (Z.of_nat (length new_links))) as [Hlt|Hge].
  - rewrite (@skipn_cons_nth _ new_links s []) by lia. reflexivity.
  - rewrite !skipn_all2 by lia. now rewrite !firstn_nil.
Qed.

Lemma range_length_chunk (index : Z) : range_length index (index + n) 1 = n.
Proof.
  unfold range_length. cbn.
  destruct (Z.ltb_spec index (index + n)); [|lia].
  rewrite Z.div_1_r. lia.
Qed.

Lemma range_length_indices : range_length 0 L n = ceil_div L n.
Proof.
  unfold range_length, ceil_div.
  destruct (Z.ltb_spec 0 n); [|lia].
  destruct (Z.ltb_spec 0 L) as [Hpos|Hzero].
  - replace (L + n - 1)%Z with ((L - 0 - 1) + 1 * n)%Z by lia.
    rewrite Z.div_add by lia. reflexivity.
  - assert (L = 0%Z) as -> by (unfold L, len in *; lia).
    symmetry. apply Z.div_small. lia.
Qed.

Lemma range_list_chunk (k : nat) :
  range_list (Z.of_nat k * n) (Z.of_nat k * n + n) 1 =
  map (fun t => (Z.of_nat (k * Z.to_nat n) + Z.of_nat t * 1)%Z) (seq 0 (Z.to_nat n)).
Proof.
  unfold range_list. rewrite range_length_chunk.
  apply map_ext. intro t. lia.
Qed.

(** One turn of the outer loop, for the chunk that starts at
    [index = k * n]: the announcement, the chunk's links, and then the pause
    or the exception [time.sleep] ends with. *)
Lemma chunk_turn (k : nat) :
  (print (msg_chunk (Z.of_nat k * n)) ;;
   for_each (range_list (Z.of_nat k * n) (Z.of_nat k * n + n) 1)
     (fun i =>
        if (i <? L)%Z then
          print (item new_links i) ;; open_new_tab (item new_links i)
        else ret tt) ;;
   sleep w k d)
  = match sleep_refusal w k d with
    | None => (chunk_events n d k (chunk new_links (Z.to_nat n) k), Ok tt)
    | Some e =>
        (Print (msg_chunk (Z.of_nat k * n))
         :: flat_map link_events (chunk new_links (Z.to_nat n) k), Raise e)
    end.
Proof.
  rewrite for_each_ok with
    (f := fun i => if (i <? L)%Z then link_events (item new_links i) else []).
  2:{ intro i. destruct (i <? L)%Z; reflexivity. }
  rewrite range_list_chunk, inner_loop_events.
  unfold sleep, chunk. destruct (sleep_refusal w k d); cbn; [|reflexivity].
  now rewrite app_nil_r.
Qed.

Lemma for_each_map (A B : Type) (g : A -> B) (l : list A) (body : B -> IO unit) :
  for_each (map g l) body = for_each l (fun x => body (g x)).
Proof. induction l as [|x l IH]; [reflexivity | cbn; now rewrite IH]. Qed.

Lemma range_list_indices :
  range_list 0 L n = map (fun k => (Z.of_nat k * n)%Z) (seq 0 (Z.to_nat (ceil_div L n))).
Proof.
  unfold range_list. rewrite range_length_indices.
  apply map_ext. intro k. lia.
Qed.

Lemma numbered_map (A : Type) (g : nat -> A) (m : nat) :
  numbered (map g (seq 0 m)) = map (fun k => (k, g k)) (seq 0 m).
Proof.
  unfold numbered. rewrite length_map, length_seq.
  generalize (seq 0 m). intro l.
  induction l as [|k l IH]; [reflexivity | cbn; now rewrite IH].
Qed.

(** The batch opener as the turns of its outer loop. *)
Lemma open_in_batches_turns :
  open_in_batches w new_links n d =
  for_each (seq 0 (Z.to_nat (ceil_div L n)))
    (fun k =>
       print (msg_chunk (Z.of_nat k * n)) ;;
       for_each (range_list (Z.of_nat k * n) (Z.of_nat k * n + n) 1)
         (fun i =>
            if (i <? L)%Z then
              print (item new_links i) ;; open_new_tab (item new_links i)
            else ret tt) ;;
       sleep w k d).
Proof.
  unfold open_in_batches, range3.
  destruct (Z.eqb_spec n 0); [lia|].
  rewrite bind_ret. fold L.
  rewrite range_list_indices, numbered_map, for_each_map. reflexivity.
Qed.



(** Whatever the pauses come to, the tabs opened are those of the first
    chunks. *)
Lemma open_in_batches_opened :
  exists j,
    opened (fst (open_in_batches w new_links n d)) =
    concat (map (chunk new_links (Z.to_nat n)) (seq 0 j)).
Proof.
  rewrite open_in_batches_turns.
  generalize (Z.to_nat (ceil_div L n)). intro m.
  assert (H : forall k0 : nat,
             exists j,
               opened (fst (for_each (seq k0 m)
                 (fun k =>
                    print (msg_chunk (Z.of_nat k * n)) ;;
                    for_each (range_list (Z.of_nat k * n) (Z.of_nat k * n + n) 1)
                      (fun i =>
                         if (i <? L)%Z then
                           print (item new_links i) ;; open_new_tab (item new_links i)
                         else ret tt) ;;
                    sleep w k d)))
               = concat (map (chunk new_links (Z.to_nat n)) (seq k0 j))).
  { induction m as [|m IH]; intro k0.
    - exists 0. reflexivity.
    - cbn [seq for_each]. rewrite chunk_turn.
      destruct (sleep_refusal w k0 d) as [e|].
      + exists 1. cbn [bind fst seq map concat].
        change (opened (Print ?x :: ?t)) with (opened t).
        rewrite app_nil_r. apply opened_links.
      + destruct (IH (S k0)) as [j Hj]. exists (S j).
        unfold bind. destruct (for_each (seq (S k0) m) _) as [tr r].
        cbn [fst] in *. cbn [seq map concat].
        rewrite opened_app, Hj. f_equal. apply opened_chunk_events. }
  exact (H 0).
Qed.


End Batches.

(** ** Chunks *)

Lemma chunk_succ (l : list str) (n k : nat) :
  chunk l n (S k) = chunk (skipn n l) n k.
Proof.
  unfold chunk. rewrite skipn_skipn. do 2 f_equal. lia.
Qed.



















(** ** [chain_b]: what [b2j] holds *)

Lemma b2j_get_append (d : Difflib.dict_b2j) (elt x : str) (i : nat) :
  Difflib.b2j_get (Difflib.b2j_append d elt i) x =
  if str_eqb elt x then Difflib.b2j_get d x ++ [i] else Difflib.b2j_get d x.
Proof.
  induction d as [|[k v] d IH]; cbn.
  - reflexivity.
  - destruct (str_eqb_spec k elt) as [->|Hne]; cbn.
    + destruct (str_eqb elt x); reflexivity.
    + rewrite IH. destruct (str_eqb_spec k x) as [->|]; [|reflexivity].
      destruct (str_eqb_spec elt x) as [->|]; [now elim Hne | reflexivity].
Qed.

Lemma b2j_get_build (l : list str) (o : nat) (d : Difflib.dict_b2j) (x : str) :
  Difflib.b2j_get
    (fold_left (fun d ie => Difflib.b2j_append d (snd ie) (fst ie))
               (Difflib.enumerate_from o l) d) x
  = Difflib.b2j_get d x ++ positions_from o x l.
Proof.
  revert o d. induction l as [|y l IH]; intros o d; cbn.
  - now rewrite app_nil_r.
  - rewrite IH, b2j_get_append. cbn.
    destruct (str_eqb y x); [now rewrite <- app_assoc | reflexivity].
Qed.

Lemma keys_append_In (d : Difflib.dict_b2j) (elt k : str) (i : nat) :
  In k (keys (Difflib.b2j_append d elt i)) -> In k (keys d) \/ k = elt.
Proof.
  induction d as [|[k' v] d IH]; cbn.
  - intros [<-|[]]. now right.
  - destruct (str_eqb k' elt); cbn; [tauto|]. intros [<-|H]; [tauto|].
    apply IH in H. tauto.
Qed.

Lemma keys_append_NoDup (d : Difflib.dict_b2j) (elt : str) (i : nat) :
  NoDup (keys d) -> NoDup (keys (Difflib.b2j_append d elt i)).
Proof.
  induction d as [|[k v] d IH]; cbn; intro H.
  - constructor; [intros [] | constructor].
  - destruct (str_eqb_spec k elt) as [->|Hne]; cbn; [assumption|].
    inversion H as [|? ? Hnin Hnd]; subst. constructor; [|now apply IH].
    intro Hin. apply keys_append_In in Hin. tauto.
Qed.

Lemma keys_build_NoDup (l : list str) (o : nat) (d : Difflib.dict_b2j) :
  NoDup (keys d) ->
  NoDup (keys (fold_left (fun d ie => Difflib.b2j_append d (snd ie) (fst ie))
                         (Difflib.enumerate_from o l) d)).
Proof.
  revert o d. induction l as [|y l IH]; intros o d H; cbn; [assumption|].
  apply IH. now apply keys_append_NoDup.
Qed.

Lemma b2j_get_absent (d : Difflib.dict_b2j) (x : str) :
  ~ In x (keys d) -> Difflib.b2j_get d x = [].
Proof.
  induction d as [|[k v] d IH]; cbn; intro H; [reflexivity|].
  destruct (str_eqb_spec k x) as [->|_]; [tauto|]. apply IH. tauto.
Qed.

Lemma keys_filter (p : str * list nat -> bool) (d : Difflib.dict_b2j) (x : str) :
  In x (keys (filter p d)) -> In x (keys d).
Proof.
  unfold keys. rewrite !in_map_iff. intros (kv & E & H).
  apply filter_In in H. exists kv. tauto.
Qed.

Lemma b2j_get_filter (p : list nat -> bool) (d : Difflib.dict_b2j) (x : str) :
  NoDup (keys d) ->
  Difflib.b2j_get (filter (fun kv => p (snd kv)) d) x =
  if p (Difflib.b2j_get d x) then Difflib.b2j_get d x else [].
Proof.
  induction d as [|[k v] d IH]; cbn; intro H.
  - now destruct (p []).
  - inversion H as [|? ? Hnin Hnd]; subst.
    destruct (str_eqb_spec k x) as [->|Hne].
    + destruct (p v) eqn:E; cbn.
      * now rewrite str_eqb_refl.
      * apply b2j_get_absent. intro Hin. apply keys_filter in Hin. tauto.
    + destruct (p v); cbn; [|now apply IH].
      destruct (str_eqb_spec k x); [tauto | now apply IH].
Qed.

(** After [chain_b], [b2j] holds for a line all its positions in [b], in
    increasing order, unless the line is popular; then it holds none. *)
Lemma chain_b_get (b : list str) (x : str) :
  Difflib.b2j_get (Difflib.chain_b b) x =
  if popular b x then [] else positions_from 0 x b.
Proof.
  unfold Difflib.chain_b, Difflib.b2j_build, popular.
  rewrite (b2j_get_filter (fun idxs => negb (Difflib.is_popular (length b) idxs)))
    by (apply keys_build_NoDup; constructor).
  rewrite b2j_get_build. cbn [Difflib.b2j_get app].
  now destruct (Difflib.is_popular _ _).
Qed.

Lemma positions_In (l : list str) (o : nat) (x : str) (j : nat) :
  In j (positions_from o x l) <-> o <= j < o + length l /\ nth (j - o) l [] = x.
Proof.
  revert o. induction l as [|y l IH]; intro o; cbn [positions_from length].
  - split; [intros [] | lia].
  - assert (Hrest : In j (positions_from (S o) x l) <->
              S o <= j < o + S (length l) /\ nth (j - o) (y :: l) [] = x).
    { rewrite IH. split; intros [Hb Hn]; (split; [lia|]).
      - replace (j - o) with (S (j - S o)) by lia. exact Hn.
      - replace (j - o) with (S (j - S o)) in Hn by lia. exact Hn. }
    destruct (str_eqb_spec y x) as [->|Hne].
    + cbn [In]. rewrite Hrest. split.
      * intros [<-|H]; [|split; [lia | tauto]].
        split; [lia|]. now rewrite Nat.sub_diag.
      * intros [Hb Hn]. destruct (Nat.eq_dec o j) as [->|]; [now left|].
        right. split; [lia | assumption].
    + rewrite Hrest. split; intros [Hb Hn].
      * split; [lia | assumption].
      * destruct (Nat.eq_dec o j) as [->|]; [|split; [lia | assumption]].
        rewrite Nat.sub_diag in Hn. cbn in Hn. now elim Hne.
Qed.

Lemma positions_sorted (l : list str) (o : nat) (x : str) :
  StronglySorted lt (positions_from o x l).
Proof.
  revert o. induction l as [|y l IH]; intro o; cbn; [constructor|].
  destruct (str_eqb y x); [|apply IH].
  constructor; [apply IH|].
  apply Forall_forall. intros j Hj. apply positions_In in Hj. lia.
Qed.

(** ** The matcher on two equal sequences *)

Lemma run_length_eq (a b : list str) (i j : nat) :
  run_length a b i j = if good a b i j then S (run_pred a b i j) else 0.
Proof. destruct i; reflexivity. Qed.

Lemma run_pred_0_r (a b : list str) (i : nat) : run_pred a b i 0 = 0.
Proof. now destruct i. Qed.

Lemma good_inv (a b : list str) (i j : nat) :
  good a b i j = true <->
  i < length a /\ j < length b /\ nth i a [] = nth j b [] /\
  popular b (nth j b []) = false.
Proof.
  unfold good. rewrite !andb_true_iff, !Nat.ltb_lt, str_eqb_eq, negb_true_iff. tauto.
Qed.

Section Identical.

Variable L : list str.

Let n := length L.
Let rl := run_length L L.

Lemma good_diag_right (i j : nat) : good L L i j = true -> good L L j j = true.
Proof. rewrite !good_inv. tauto. Qed.

Lemma good_diag_left (i j : nat) : good L L i j = true -> good L L i i = true.
Proof. rewrite !good_inv. intros (? & ? & E & ?). rewrite E. tauto. Qed.

Lemma rl_le_right (i j : nat) : rl i j <= rl j j.
Proof.
  unfold rl. revert j. induction i as [|i IH]; intro j; rewrite !run_length_eq;
    destruct (good L L _ j) eqn:G; try lia;
    rewrite (good_diag_right _ _ G); apply le_n_S.
  - cbn. lia.
  - destruct j as [|j]; cbn; [lia | apply IH].
Qed.

Lemma rl_le_left (i j : nat) : rl i j <= rl i i.
Proof.
  unfold rl. revert j. induction i as [|i IH]; intro j; rewrite !run_length_eq;
    destruct (good L L _ j) eqn:G; try lia;
    rewrite (good_diag_left _ _ G); apply le_n_S.
  - cbn. lia.
  - destruct j as [|j]; cbn; [lia | apply IH].
Qed.

Lemma rl_le_S (i j : nat) : rl i j <= S i.
Proof.
  unfold rl. revert j. induction i as [|i IH]; intro j; rewrite run_length_eq;
    destruct (good L L _ j); try lia; apply le_n_S.
  - cbn. lia.
  - destruct j as [|j]; cbn; [lia | apply IH].
Qed.

Lemma scan_row_get (i bhi : nat) (prev : Difflib.dict_j2len) (js : list nat)
    (nj : Difflib.dict_j2len) (best : Difflib.Match) (j : nat) :
  (forall j', In j' js -> j' < bhi) ->
  Difflib.j2len_get (fst (Difflib.scan_row i 0 bhi prev js nj best)) j =
  if existsb (Nat.eqb j) js then Difflib.j2len_get_pred prev j + 1
  else Difflib.j2len_get nj j.
Proof.
  revert nj best. induction js as [|j0 js IH]; intros nj best Hlt; [reflexivity|].
  cbn [Difflib.scan_row existsb]. change (j0 <? 0) with false. cbv iota.
  assert (H0 : j0 < bhi) by (apply Hlt; now left).
  destruct (Nat.leb_spec bhi j0); [lia|].
  destruct best as [[p q] bs].
  rewrite IH by (intros; apply Hlt; now right).
  destruct (existsb (Nat.eqb j) js); [now rewrite orb_true_r|].
  rewrite orb_false_r. cbn [Difflib.j2len_get].
  rewrite (Nat.eqb_sym j0 j). destruct (Nat.eqb_spec j j0) as [->|]; reflexivity.
Qed.

Lemma row_k (i j : nat) (prev : Difflib.dict_j2len) :
  (forall j', Difflib.j2len_get_pred prev j' = run_pred L L i j') ->
  i < n -> j < n -> nth j L [] = nth i L [] ->
  popular L (nth i L []) = false ->
  Difflib.j2len_get_pred prev j + 1 = rl i j.
Proof.
  intros Hprev Hi Hj E P. unfold rl. rewrite run_length_eq, Hprev.
  replace (good L L i j) with true; [lia|].
  symmetry. apply good_inv. rewrite E. tauto.
Qed.

(** One row of the scan, for a line that is not popular: the best block
    stays on the diagonal and ends up at least as long as the diagonal run
    of this row. *)
Lemma scan_row_best (i : nat) (prev : Difflib.dict_j2len) :
  i < n ->
  (forall j, Difflib.j2len_get_pred prev j = run_pred L L i j) ->
  popular L (nth i L []) = false ->
  forall (js : list nat) (nj : Difflib.dict_j2len) (p bs : nat),
    StronglySorted lt js ->
    (forall j, In j js -> j < n /\ nth j L [] = nth i L []) ->
    p + bs <= S i ->
    (forall i', i' < i -> rl i' i' <= bs) ->
    (In i js \/ (rl i i <= bs /\ forall j, In j js -> i < j)) ->
    exists p' bs',
      snd (Difflib.scan_row i 0 n prev js nj (p, p, bs)) = (p', p', bs') /\
      p' + bs' <= S i /\
      (forall i', i' < S i -> rl i' i' <= bs').
Proof.
  intros Hi Hprev P. induction js as [|j js IH]; intros nj p bs Hsort Hjs Hsum Hold Hmode.
  - destruct Hmode as [[]|[Hdiag _]]. exists p, bs. cbn. repeat split; auto.
    intros i' Hi'. destruct (Nat.eq_dec i' i) as [->|]; [assumption | apply Hold; lia].
  - destruct (Hjs j (or_introl eq_refl)) as [Hj Ej].
    pose proof (@row_k i j prev Hprev Hi Hj Ej P) as Hk.
    inversion Hsort as [|? ? Hsort' Hhead]; subst.
    assert (Hjs' : forall j', In j' js -> j' < n /\ nth j' L [] = nth i L [])
      by (intros; apply Hjs; now right).
    cbn [Difflib.scan_row]. change (j <? 0) with false. cbv iota.
    destruct (Nat.leb_spec n j); [lia|]. rewrite Hk.
    destruct (Nat.lt_trichotomy j i) as [Hlt | [-> | Hgt]].
    + (* left of the diagonal: the diagonal run of row [j] was at least as long *)
      assert (Hle : rl i j <= bs) by (pose proof (rl_le_right i j); pose proof (Hold j Hlt); lia).
      destruct (Nat.ltb_spec bs (rl i j)); [lia|].
      apply IH; auto. destruct Hmode as [[->|Hin]|[_ Hall]].
      * lia.
      * now left.
      * specialize (Hall j (or_introl eq_refl)). lia.
    + (* on the diagonal *)
      assert (Hafter : forall j, In j js -> i < j)
        by (intros j Hin; rewrite Forall_forall in Hhead; now apply Hhead).
      pose proof (rl_le_S i i).
      destruct (Nat.ltb_spec bs (rl i i)).
      * replace (i + 1 - rl i i) with (S i - rl i i) by lia.
        apply IH; auto; try lia.
        intros i' Hi'. specialize (Hold i' Hi'). lia.
      * apply IH; auto.
    + (* right of the diagonal: the diagonal cell of this row came first *)
      destruct Hmode as [[->|Hin]|[Hdiag Hall]].
      * lia.
      * rewrite Forall_forall in Hhead. specialize (Hhead i Hin). lia.
      * assert (Hle : rl i j <= bs) by (pose proof (rl_le_left i j); lia).
        destruct (Nat.ltb_spec bs (rl i j)); [lia|].
        apply IH; auto. right. split; [assumption|]. intros; apply Hall; now right.
Qed.

Lemma scanned_pred (i : nat) (st : Difflib.dict_j2len * Difflib.Match) :
  scanned L i st ->
  forall j, Difflib.j2len_get_pred (fst st) j = run_pred L L i j.
Proof.
  intros [H _] j. destruct j as [|j]; cbn.
  - now rewrite run_pred_0_r.
  - rewrite H. now destruct i.
Qed.

Lemma existsb_eqb_In (j : nat) (js : list nat) :
  existsb (Nat.eqb j) js = true <-> In j js.
Proof.
  rewrite existsb_exists. split.
  - intros (x & Hx & E). apply Nat.eqb_eq in E. now subst.
  - intro H. exists j. split; [assumption | apply Nat.eqb_refl].
Qed.

Lemma scan_row_step (i : nat) (st : Difflib.dict_j2len * Difflib.Match) :
  i < n ->
  scanned L i st ->
  scanned L (S i)
    (Difflib.scan_row i 0 n (fst st)
       (Difflib.b2j_get (Difflib.chain_b L) (nth i L [])) [] (snd st)).
Proof.
  intros Hi Hst. pose proof (scanned_pred Hst) as Hprev.
  destruct Hst as [_ (p & bs & Hbest & Hsum & Hold)].
  rewrite chain_b_get, Hbest.
  destruct (popular L (nth i L [])) eqn:P.
  - (* a popular line: the row is skipped *)
    cbn [Difflib.scan_row]. split; cbn [fst snd].
    + intro j. cbn. unfold rl. rewrite run_length_eq.
      destruct (good L L i j) eqn:G; [|reflexivity].
      apply good_inv in G. destruct G as (_ & _ & E & G). rewrite <- E in G. congruence.
    + exists p, bs. repeat split; auto.
      intros i' Hi'. destruct (Nat.eq_dec i' i) as [->|]; [|apply Hold; lia].
      unfold rl. rewrite run_length_eq.
      destruct (good L L i i) eqn:G; [|lia].
      apply good_inv in G. destruct G as (_ & _ & _ & G). congruence.
  - assert (Hjs : forall j, In j (positions_from 0 (nth i L []) L) <->
                            j < n /\ nth j L [] = nth i L []).
    { intro j. rewrite positions_In, Nat.sub_0_r. fold n. split; intros [? ?]; split; auto; lia. }
    split.
    + intro j. rewrite scan_row_get by (intros j' Hj'; now apply Hjs in Hj').
      destruct (existsb (Nat.eqb j) _) eqn:E.
      * apply existsb_eqb_In, Hjs in E. destruct E as [Hj Ej].
        now apply row_k.
      * cbn. unfold rl. rewrite run_length_eq.
        destruct (good L L i j) eqn:G; [|reflexivity].
        apply good_inv in G. destruct G as (_ & Hj & Ej & _).
        assert (Hin : In j (positions_from 0 (nth i L []) L)) by (apply Hjs; auto).
        apply existsb_eqb_In in Hin. congruence.
    + destruct (@scan_row_best i (fst st) Hi Hprev P
                  (positions_from 0 (nth i L []) L) [] p bs) as (p' & bs' & E & Hs & Ho).
      * apply positions_sorted.
      * intros j Hj. now apply Hjs.
      * lia.
      * assumption.
      * left. apply Hjs. auto.
      * exists p', bs'. auto.
Qed.

Lemma scan_rows_prefix (m : nat) :
  m <= n ->
  scanned L m
    (fold_left
       (fun st i =>
          Difflib.scan_row i 0 n (fst st)
            (Difflib.b2j_get (Difflib.chain_b L) (nth i L [])) [] (snd st))
       (seq 0 m) ([], (0, 0, 0))).
Proof.
  induction m as [|m IH]; intro Hm.
  - cbn. split; [reflexivity|]. exists 0, 0. repeat split; auto. intros; lia.
  - rewrite seq_S, fold_left_app. cbn [fold_left Nat.add].
    apply scan_row_step; [lia | apply IH; lia].
Qed.

Lemma extend_left_diagonal (p bs : nat) :
  Difflib.extend_left L L 0 0 p p bs = (0, 0, bs + p).
Proof.
  revert bs. induction p as [|p IH]; intro bs; cbn [Difflib.extend_left].
  - f_equal. lia.
  - cbn [Nat.ltb Nat.leb andb]. rewrite Nat.sub_1_r. cbn [Nat.pred].
    rewrite str_eqb_refl, IH. f_equal. lia.
Qed.

Lemma extend_right_diagonal (room bs : nat) :
  bs <= n -> room = n - bs ->
  Difflib.extend_right L L n n room 0 0 bs = (0, 0, n).
Proof.
  revert bs. induction room as [|room IH]; intros bs Hle Hroom; cbn [Difflib.extend_right].
  - repeat f_equal. lia.
  - cbn [Nat.add]. destruct (Nat.ltb_spec bs n); [|lia].
    cbn [andb]. rewrite str_eqb_refl. apply IH; lia.
Qed.

(** On two equal sequences the longest match is the whole sequence. *)
Lemma find_longest_match_identical :
  Difflib.find_longest_match L L (Difflib.chain_b L) 0 n 0 n = (0, 0, n).
Proof.
  destruct (scan_rows_prefix (le_n n)) as [_ (p & bs & E & Hsum & _)].
  assert (E' : snd (Difflib.scan_rows L (Difflib.chain_b L) 0 n 0 n) = (p, p, bs))
    by (unfold Difflib.scan_rows; rewrite Nat.sub_0_r; exact E).
  unfold Difflib.find_longest_match. rewrite E'.
  rewrite extend_left_diagonal. apply extend_right_diagonal; lia.
Qed.

Lemma find_longest_match_whole :
  Difflib.find_longest_match L L (Difflib.chain_b L) 0 (length L) 0 (length L)
  = (0, 0, length L).
Proof. exact find_longest_match_identical. Qed.

Lemma get_matching_blocks_identical :
  Difflib.get_matching_blocks L L =
  match length L with
  | O => [(0, 0, 0)]
  | S m => [(0, 0, S m); (S m, S m, 0)]
  end.
Proof.
  unfold Difflib.get_matching_blocks.
  replace (length L + length L + 1) with (S (length L + length L)) by lia.
  cbn [Difflib.blocks_loop]. rewrite find_longest_match_whole.
  destruct (length L) as [|m]; [reflexivity|].
  cbn [Nat.eqb Nat.ltb Nat.leb andb].
  destruct (Nat.leb_spec (0 + S m) m); [lia|]. reflexivity.
Qed.

Lemma get_opcodes_identical :
  Difflib.get_opcodes L L =
  match length L with
  | O => []
  | S m => [(Difflib.Equal, 0, S m, 0, S m)]
  end.
Proof.
  unfold Difflib.get_opcodes. rewrite get_matching_blocks_identical.
  destruct (length L) as [|m]; [reflexivity|].
  cbn [Difflib.opcodes_from]. rewrite !Nat.add_0_l, !Nat.ltb_irrefl.
  reflexivity.
Qed.

Lemma get_grouped_opcodes_identical : Difflib.get_grouped_opcodes L L 3 = [].
Proof.
  unfold Difflib.get_grouped_opcodes. rewrite get_opcodes_identical.
  destruct (length L) as [|m]; [reflexivity|].
  cbn [Difflib.trim_first Difflib.trim_last Difflib.group_loop Difflib.is_equal andb].
  destruct (Nat.ltb_spec (3 + 3)
              (Nat.min (S m) (Nat.max 0 (S m - 3) + 3) - Nat.max 0 (S m - 3))); [lia|].
  reflexivity.
Qed.

(** A sequence of lines has no differences with itself. *)
Lemma unified_diff_identical : Difflib.unified_diff L L = [].
Proof. unfold Difflib.unified_diff. now rewrite get_grouped_opcodes_identical. Qed.

End Identical.

(** C4. Whatever the document, a run on two documents with that same
    content finds nothing: the diff is empty, no link is extracted from it,
    and the Result List is empty. *)
Theorem identical_documents_empty_result (d : str) :
  result_list d d = [].
Proof.
  unfold result_list, find_and_extract_diff_links.
  rewrite unified_diff_identical. reflexivity.
Qed.

(** ** The loop of [get_matching_blocks] ends within its fuel *)

Section Windows.

Variables a b : list str.
Variable b2j : Difflib.dict_b2j.
Variables alo ahi blo bhi : nat.
Hypothesis a_window : alo <= ahi.
Hypothesis b_window : blo <= bhi.

Let w : Difflib.window := (alo, ahi, blo, bhi).

Lemma scan_row_bounds (i : nat) (prev : Difflib.dict_j2len) :
  alo <= i < ahi ->
  j2len_bounded blo (i - alo) prev ->
  forall (js : list nat) (nj : Difflib.dict_j2len) (best : Difflib.Match),
    j2len_bounded blo (S i - alo) nj ->
    block_in w best ->
    j2len_bounded blo (S i - alo) (fst (Difflib.scan_row i blo bhi prev js nj best))
    /\ block_in w (snd (Difflib.scan_row i blo bhi prev js nj best)).
Proof.
  intros Hi Hprev. induction js as [|j js IH]; intros nj best Hnj Hbest.
  - split; assumption.
  - cbn [Difflib.scan_row].
    destruct (Nat.ltb_spec j blo); [now apply IH|].
    destruct (Nat.leb_spec bhi j); [split; assumption|].
    destruct best as [[p q] bs].
    assert (Hk : Difflib.j2len_get_pred prev j + 1 <= S i - alo /\
                 Difflib.j2len_get_pred prev j + 1 <= S j - blo).
    { destruct j as [|j']; cbn [Difflib.j2len_get_pred]; [lia|].
      destruct (Hprev j'). lia. }
    apply IH.
    + intro j'. cbn [Difflib.j2len_get].
      destruct (Nat.eqb_spec j j') as [<-|]; [exact Hk | apply Hnj].
    + destruct (Nat.ltb_spec bs (Difflib.j2len_get_pred prev j + 1)); [|assumption].
      unfold block_in, w. lia.
Qed.

Lemma scan_rows_bounds (len start : nat) (st : Difflib.dict_j2len * Difflib.Match) :
  alo <= start -> start + len <= ahi ->
  j2len_bounded blo (start - alo) (fst st) ->
  block_in w (snd st) ->
  block_in w
    (snd (fold_left
            (fun st i =>
               Difflib.scan_row i blo bhi (fst st)
                 (Difflib.b2j_get b2j (nth i a [])) [] (snd st))
            (seq start len) st)).
Proof.
  revert start st. induction len as [|len IH]; intros start st Hs He Hj Hb.
  - assumption.
  - cbn [seq fold_left].
    destruct (@scan_row_bounds start (fst st) ltac:(lia) Hj
                (Difflib.b2j_get b2j (nth start a [])) [] (snd st)) as [Hj' Hb'].
    + intro j. cbn [Difflib.j2len_get]. lia.
    + assumption.
    + apply IH; try lia; assumption.
Qed.

Lemma extend_left_bounds (p q bs : nat) :
  alo <= p -> blo <= q ->
  let '(p', q', bs') := Difflib.extend_left a b alo blo p q bs in
  alo <= p' /\ blo <= q' /\ p' + bs' = p + bs /\ q' + bs' = q + bs.
Proof.
  revert q bs. induction p as [|p IH]; intros q bs Hp Hq; cbn [Difflib.extend_left].
  - lia.
  - destruct (Nat.ltb_spec alo (S p)); cbn [andb]; [|lia].
    destruct (Nat.ltb_spec blo q); cbn [andb]; [|lia].
    destruct (str_eqb _ _); [|lia].
    specialize (IH (q - 1) (bs + 1) ltac:(lia) ltac:(lia)).
    destruct (Difflib.extend_left a b alo blo p (q - 1) (bs + 1)) as [[p' q'] bs'].
    lia.
Qed.

Lemma extend_right_bounds (room p q bs : nat) :
  p + bs <= ahi -> q + bs <= bhi ->
  let '(p', q', bs') := Difflib.extend_right a b ahi bhi room p q bs in
  p' = p /\ q' = q /\ bs <= bs' /\ p + bs' <= ahi /\ q + bs' <= bhi.
Proof.
  revert bs. induction room as [|room IH]; intros bs Hp Hq; cbn [Difflib.extend_right].
  - lia.
  - destruct (Nat.ltb_spec (p + bs) ahi); cbn [andb]; [|lia].
    destruct (Nat.ltb_spec (q + bs) bhi); cbn [andb]; [|lia].
    destruct (str_eqb _ _); [|lia].
    specialize (IH (bs + 1) ltac:(lia) ltac:(lia)).
    destruct (Difflib.extend_right a b ahi bhi room p q (bs + 1)) as [[p' q'] bs'].
    lia.
Qed.

(** The block [find_longest_match] returns lies inside the window. *)
Lemma find_longest_match_in_window :
  block_in w (Difflib.find_longest_match a b b2j alo ahi blo bhi).
Proof.
  unfold Difflib.find_longest_match, Difflib.scan_rows.
  pose proof (@scan_rows_bounds (ahi - alo) alo ([], (alo, blo, 0))
                (le_n _) ltac:(lia)) as H.
  cbn [fst snd] in H.
  specialize (H ltac:(intro j; cbn [Difflib.j2len_get]; lia) ltac:(unfold block_in, w; lia)).
  destruct (snd (fold_left _ _ _)) as [[p q] bs].
  unfold block_in, w in H.
  pose proof (@extend_left_bounds p q bs ltac:(lia) ltac:(lia)) as HL.
  destruct (Difflib.extend_left a b alo blo p q bs) as [[p1 q1] bs1].
  pose proof (@extend_right_bounds (ahi - (p1 + bs1)) p1 q1 bs1 ltac:(lia) ltac:(lia)) as HR.
  destruct (Difflib.extend_right a b ahi bhi (ahi - (p1 + bs1)) p1 q1 bs1) as [[p2 q2] bs2].
  unfold block_in, w. lia.
Qed.

End Windows.

Lemma queue_weight_cons (w : Difflib.window) (queue : list Difflib.window) :
  queue_weight (w :: queue) = window_weight w + queue_weight queue.
Proof. reflexivity. Qed.

Lemma window_weight_pos (w : Difflib.window) : 1 <= window_weight w.
Proof. destruct w as [[[alo ahi] blo] bhi]. cbn. lia. Qed.

Lemma blocks_loop_done (a b : list str) (b2j : Difflib.dict_b2j) (fuel : nat)
    (acc : list Difflib.Match) :
  Difflib.blocks_loop a b b2j fuel [] acc = acc.
Proof. now destruct fuel. Qed.

(** Once the fuel covers the weight of the queue, more fuel changes
    nothing: the loop has left through its own exit, the empty queue. *)
Lemma blocks_loop_fuel (a b : list str) (b2j : Difflib.dict_b2j) (fuel fuel' : nat)
    (queue : list Difflib.window) (acc : list Difflib.Match) :
  Forall window_ok queue ->
  queue_weight queue <= fuel ->
  queue_weight queue <= fuel' ->
  Difflib.blocks_loop a b b2j fuel queue acc =
  Difflib.blocks_loop a b b2j fuel' queue acc.
Proof.
  revert fuel' queue acc.
  induction fuel as [|fuel IH]; intros fuel' queue acc Hok Hf Hf'.
  - destruct queue as [|w queue]; [now rewrite !blocks_loop_done|].
    rewrite queue_weight_cons in Hf. pose proof (window_weight_pos w). lia.
  - destruct queue as [|w queue]; [now rewrite !blocks_loop_done|].
    rewrite queue_weight_cons in Hf, Hf'. pose proof (window_weight_pos w) as Hpos.
    destruct fuel' as [|fuel']; [lia|].
    inversion Hok as [|? ? Hw Hq]; subst.
    destruct w as [[[alo ahi] blo] bhi]. destruct Hw as [Ha Hb].
    pose proof (@find_longest_match_in_window a b b2j alo ahi blo bhi Ha Hb) as Hin.
    cbn [Difflib.blocks_loop].
    destruct (Difflib.find_longest_match a b b2j alo ahi blo bhi) as [[i j] k].
    unfold block_in in Hin. cbn [window_weight] in *.
    destruct (Nat.eqb_spec k 0); [apply IH; auto; lia|].
    destruct (Nat.ltb_spec alo i), (Nat.ltb_spec blo j),
             (Nat.ltb_spec (i + k) ahi), (Nat.ltb_spec (j + k) bhi);
      cbn [andb]; apply IH;
      repeat (apply Forall_cons; [unfold window_ok; lia|]); auto;
      rewrite ?queue_weight_cons; cbn [window_weight]; lia.
Qed.

(** The fuel [get_matching_blocks] gives the loop is enough. *)
Lemma get_matching_blocks_fuel (a b : list str) (extra : nat) :
  Difflib.blocks_loop a b (Difflib.chain_b b) (length a + length b + 1 + extra)
    [(0, length a, 0, length b)] []
  = Difflib.blocks_loop a b (Difflib.chain_b b) (length a + length b + 1)
      [(0, length a, 0, length b)] [].
Proof.
  apply blocks_loop_fuel.
  - constructor; [unfold window_ok; lia | constructor].
  - cbn. lia.
  - cbn. lia.
Qed.

(** * Further properties *)

(** ** [re.sub] *)

Lemma sub_from_skip (m : str -> option str) (repl p rest : str) :
  Sub.sub_from m repl (length p) (p ++ rest) = Sub.sub_from m repl 0 rest.
Proof. induction p as [|c p IH]; [reflexivity | exact IH]. Qed.

Lemma sub_match (m : str -> option str) (repl s rest : str) :
  consumes m -> m s = Some rest ->
  Sub.sub m repl s = repl ++ Sub.sub m repl rest.
Proof.
  intros Hm E. destruct (Hm _ _ E) as (p & Hp & ->).
  destruct p as [|c p]; [now elim Hp|].
  unfold Sub.sub. change ((c :: p) ++ rest) with (c :: (p ++ rest)) in *.
  cbn [Sub.sub_from]. rewrite E. f_equal.
  cbn [length]. rewrite length_app.
  replace (S (length p + length rest) - length rest - 1) with (length p) by lia.
  apply sub_from_skip.
Qed.

Lemma sub_no_match (m : str -> option str) (repl : str) (c : char) (s : str) :
  m (c :: s) = None -> Sub.sub m repl (c :: s) = c :: Sub.sub m repl s.
Proof. intro E. unfold Sub.sub. cbn [Sub.sub_from]. now rewrite E. Qed.

(** Induction along the scan of [re.sub]. *)
Lemma sub_scan (m : str -> option str) (repl : str) (P : str -> str -> Prop) :
  consumes m ->
  P [] [] ->
  (forall c s t, m (c :: s) = None -> P s t -> P (c :: s) (c :: t)) ->
  (forall p rest t, p <> [] -> m (p ++ rest) = Some rest -> P rest t ->
                    P (p ++ rest) (repl ++ t)) ->
  forall s, P s (Sub.sub m repl s).
Proof.
  intros Hm Hnil Hcopy Hrepl s.
  remember (length s) as n eqn:Hn.
  assert (Hle : length s <= n) by lia. clear Hn.
  revert s Hle. induction n as [|n IH]; intros s Hle.
  - destruct s; [exact Hnil | cbn in Hle; lia].
  - destruct s as [|c s]; [exact Hnil|].
    destruct (m (c :: s)) as [rest|] eqn:E.
    + rewrite (@sub_match m repl _ _ Hm E).
      destruct (Hm _ _ E) as (p & Hp & Hs). rewrite Hs in *.
      apply Hrepl; [assumption | assumption |].
      apply IH. rewrite length_app in Hle.
      destruct p; [now elim Hp | cbn in Hle; lia].
    + rewrite (@sub_no_match m repl _ _ E). apply Hcopy; [assumption|].
      apply IH. cbn in Hle. lia.
Qed.

Lemma span_not_gt_inv (s run rest : str) :
  Sub.span_not_gt s = (run, rest) ->
  s = run ++ rest /\ ~ In Sub.GT run /\ (rest = [] \/ exists r, rest = Sub.GT :: r).
Proof.
  revert run rest. induction s as [|c s IH]; intros run rest; cbn [Sub.span_not_gt].
  - intros [= <- <-]. repeat split; auto.
  - destruct (N.eqb_spec c Sub.GT) as [->|Hne].
    + intros [= <- <-]. repeat split; auto. right. now exists s.
    + destruct (Sub.span_not_gt s) as [run' rest'].
      intros [= <- <-]. destruct (IH _ _ eq_refl) as (-> & Hnot & Hrest).
      repeat split; auto. intros [E|Hin]; [now elim Hne | now apply Hnot].
Qed.

Lemma span_space_inv (s run rest : str) :
  Sub.span_space s = (run, rest) ->
  s = run ++ rest /\ Forall (fun c => Sub.is_space c = true) run /\
  (forall c r, rest = c :: r -> Sub.is_space c = false).
Proof.
  revert run rest. induction s as [|c s IH]; intros run rest; cbn [Sub.span_space].
  - intros [= <- <-]. repeat split; auto. discriminate.
  - destruct (Sub.is_space c) eqn:E.
    + destruct (Sub.span_space s) as [run' rest'].
      intros [= <- <-]. destruct (IH _ _ eq_refl) as (-> & Hall & Hrest).
      repeat split; auto.
    + intros [= <- <-]. repeat split; auto. intros c' r [= <- <-]. exact E.
Qed.

Lemma match_tag_consumes : consumes Sub.match_tag.
Proof.
  intros s rest. unfold Sub.match_tag. destruct s as [|c s]; [discriminate|].
  destruct (N.eqb c Sub.LT); [|discriminate].
  destruct (Sub.span_not_gt s) as [run rest'] eqn:E.
  apply span_not_gt_inv in E. destruct E as (-> & _ & _).
  destruct run as [|x run]; [discriminate|].
  destruct rest' as [|d rest']; [discriminate|].
  destruct (N.eqb d Sub.GT); [|discriminate].
  intros [= <-]. exists (c :: (x :: run) ++ [d]). split; [discriminate|].
  cbn. now rewrite <- app_assoc.
Qed.

Lemma match_spaces_consumes : consumes Sub.match_spaces.
Proof.
  intros s rest. unfold Sub.match_spaces.
  destruct (Sub.span_space s) as [run rest'] eqn:E.
  apply span_space_inv in E. destruct E as (-> & _ & _).
  destruct run as [|x run]; [discriminate|].
  intros [= <-]. exists (x :: run). split; [discriminate | reflexivity].
Qed.

(** ** [clean_html]: the tags *)

Lemma match_tag_not_LT (c : char) (s : str) :
  c <> Sub.LT -> Sub.match_tag (c :: s) = None.
Proof.
  intro H. cbn [Sub.match_tag]. destruct (N.eqb_spec c Sub.LT); [now elim H | reflexivity].
Qed.

Lemma match_tag_LT (s : str) :
  Sub.match_tag (Sub.LT :: s) = None <->
  hd_error s = Some Sub.GT \/ ~ In Sub.GT s.
Proof.
  cbn [Sub.match_tag]. rewrite N.eqb_refl.
  destruct (Sub.span_not_gt s) as [run rest] eqn:E.
  apply span_not_gt_inv in E. destruct E as (-> & Hnot & Hrest).
  destruct run as [|x run].
  - cbn [app]. split; [intros _ | reflexivity].
    destruct Hrest as [->|[r ->]]; [right; intros [] | now left].
  - destruct Hrest as [->|[r ->]].
    + split; [intros _ | reflexivity]. right. now rewrite app_nil_r.
    + rewrite N.eqb_refl. split; [discriminate|]. intros [H|H].
      * cbn in H. injection H as ->. elim Hnot. now left.
      * elim H. apply in_or_app. right. now left.
Qed.

Lemma match_tag_starts (s rest : str) :
  Sub.match_tag s = Some rest -> exists s1, s = Sub.LT :: s1.
Proof.
  destruct s as [|c s]; [discriminate|]. cbn [Sub.match_tag].
  destruct (N.eqb_spec c Sub.LT) as [->|]; [|discriminate]. intros _. now exists s.
Qed.

Lemma no_open_tag_tail (c : char) (t : str) : no_open_tag (c :: t) -> no_open_tag t.
Proof. intros H pre post E. apply (H (c :: pre) post). now rewrite E. Qed.

Lemma no_open_tag_cons (c : char) (t : str) :
  no_open_tag t ->
  (c = Sub.LT -> hd_error t = Some Sub.GT \/ ~ In Sub.GT t) ->
  no_open_tag (c :: t).
Proof.
  intros Ht Hc pre post E. destruct pre as [|c' pre].
  - injection E as -> ->. now apply Hc.
  - injection E as _ E. exact (Ht _ _ E).
Qed.

Lemma no_open_tag_nil : no_open_tag [].
Proof. intros pre post E. destruct pre; discriminate. Qed.

Lemma sub_tags_inv (s : str) :
  no_open_tag (Sub.sub Sub.match_tag [] s) /\
  incl (Sub.sub Sub.match_tag [] s) s /\
  (forall r, s = Sub.GT :: r -> exists r', Sub.sub Sub.match_tag [] s = Sub.GT :: r').
Proof.
  apply (@sub_scan Sub.match_tag []
           (fun s t => no_open_tag t /\ incl t s /\
                       (forall r, s = Sub.GT :: r -> exists r', t = Sub.GT :: r'))).
  - exact match_tag_consumes.
  - split; [exact no_open_tag_nil|]. split; [apply incl_refl | discriminate].
  - intros c s' t E (Hno & Hincl & Hgt). split; [|split].
    + apply no_open_tag_cons; [assumption|]. intros ->.
      apply match_tag_LT in E. destruct E as [E|E].
      * left. destruct s' as [|d s']; [discriminate|]. injection E as ->.
        destruct (Hgt s' eq_refl) as [r' ->]. reflexivity.
      * right. intro Hin. apply E. now apply Hincl.
    + intros x [<-|Hx]; [now left | right; now apply Hincl].
    + intros r [= -> _]. now exists t.
  - intros p rest t Hp E (Hno & Hincl & Hgt). cbn [app]. split; [|split].
    + assumption.
    + intros x Hx. apply in_or_app. right. now apply Hincl.
    + intros r Hr. apply match_tag_starts in E. destruct E as [s1 E].
      rewrite Hr in E. discriminate.
Qed.

Lemma sub_tags_id (s : str) : no_open_tag s -> Sub.sub Sub.match_tag [] s = s.
Proof.
  induction s as [|c s IH]; intro H; [reflexivity|].
  rewrite sub_no_match.
  - f_equal. apply IH. now apply no_open_tag_tail in H.
  - destruct (N.eqb_spec c Sub.LT) as [->|Hne].
    + apply match_tag_LT. exact (H [] s eq_refl).
    + now apply match_tag_not_LT.
Qed.

Lemma no_open_tag_no_tag (t : str) : no_open_tag t <-> ~ has_tag t.
Proof.
  split.
  - intros H (pre & body & post & E & Hne & Hnot).
    destruct (H pre (body ++ [Sub.GT] ++ post) E) as [Hhd | Hin].
    + destruct body as [|x body]; [now elim Hne|].
      cbn in Hhd. injection Hhd as ->. apply Hnot. now left.
    + apply Hin. apply in_or_app. right. now left.
  - intros H pre post E.
    destruct (Sub.span_not_gt post) as [run rest] eqn:Es.
    apply span_not_gt_inv in Es. destruct Es as (-> & Hnot & Hrest).
    destruct Hrest as [->|[r ->]].
    + right. now rewrite app_nil_r.
    + destruct run as [|x run]; [now left|].
      elim H. exists pre, (x :: run), r. repeat split; [exact E | discriminate | exact Hnot].
Qed.

(** ** [clean_html]: the white space *)

Lemma LT_not_space : Sub.is_space Sub.LT = false.
Proof. reflexivity. Qed.

Lemma GT_not_space : Sub.is_space Sub.GT = false.
Proof. reflexivity. Qed.

Lemma match_spaces_inv (s rest : str) :
  Sub.match_spaces s = Some rest ->
  exists run,
    s = run ++ rest /\ run <> [] /\
    Forall (fun c => Sub.is_space c = true) run /\
    (forall c r, rest = c :: r -> Sub.is_space c = false).
Proof.
  unfold Sub.match_spaces. destruct (Sub.span_space s) as [run rest'] eqn:E.
  apply span_space_inv in E. destruct E as (-> & Hall & Hrest).
  destruct run as [|x run]; [discriminate|]. intros [= <-].
  exists (x :: run). repeat split; auto. discriminate.
Qed.

Lemma match_spaces_none (c : char) (s : str) :
  Sub.match_spaces (c :: s) = None <-> Sub.is_space c = false.
Proof.
  unfold Sub.match_spaces. cbn [Sub.span_space].
  destruct (Sub.is_space c); [|tauto].
  destruct (Sub.span_space s). split; discriminate.
Qed.

Lemma match_spaces_one (c d : char) (s : str) :
  Sub.is_space c = true -> Sub.is_space d = false ->
  Sub.match_spaces (c :: d :: s) = Some (d :: s).
Proof.
  intros Hc Hd. unfold Sub.match_spaces. cbn [Sub.span_space]. now rewrite Hc, Hd.
Qed.

Lemma match_spaces_last (c : char) :
  Sub.is_space c = true -> Sub.match_spaces [c] = Some [].
Proof. intro Hc. unfold Sub.match_spaces. cbn [Sub.span_space]. now rewrite Hc. Qed.

Lemma plain_spaces_tail (c : char) (t : str) : plain_spaces (c :: t) -> plain_spaces t.
Proof. intros H x Hx. apply H. now right. Qed.

Lemma single_spaced_tail (c : char) (t : str) : single_spaced (c :: t) -> single_spaced t.
Proof. intros H pre x y post E. apply (H (c :: pre) x y post). now rewrite E. Qed.

Lemma single_spaced_cons (c : char) (t : str) :
  single_spaced t ->
  (Sub.is_space c = true -> forall d r, t = d :: r -> Sub.is_space d = false) ->
  single_spaced (c :: t).
Proof.
  intros Ht Hc pre x y post E Hx Hy. destruct pre as [|c' pre].
  - injection E as -> E. rewrite (Hc Hx _ _ E) in Hy. discriminate.
  - injection E as _ E. exact (Ht _ _ _ _ E Hx Hy).
Qed.

Lemma no_open_tag_suffix (p t : str) : no_open_tag (p ++ t) -> no_open_tag t.
Proof. induction p as [|c p IH]; [auto|]. intro H. apply IH. exact (@no_open_tag_tail c (p ++ t) H). Qed.

Lemma sub_spaces_inv (s : str) :
  spaces_collapsed s (Sub.sub Sub.match_spaces [Sub.SPACE] s).
Proof.
  apply (@sub_scan Sub.match_spaces [Sub.SPACE] spaces_collapsed).
  - exact match_spaces_consumes.
  - repeat split.
    + intros c [].
    + intros pre c d post E. destruct pre; discriminate.
    + discriminate.
    + auto.
    + discriminate.
    + auto.
  - intros c s' t E (Hp & Hs & Hh & Hin & Hgt & Hno).
    apply match_spaces_none in E. repeat split.
    + intros x [<-|Hx] Hsp; [congruence | now apply Hp].
    + apply single_spaced_cons; [assumption | congruence].
    + intros c' r [= <- <-] Hsp. congruence.
    + intros x Hx [<-|Hi]; [now left | right; now apply Hin].
    + intros r [= -> _]. now exists t.
    + intro H. apply no_open_tag_cons; [exact (Hno (@no_open_tag_tail c s' H))|].
      intros ->. destruct (H [] s' eq_refl) as [Hhd | Hnin].
      * left. destruct s' as [|d s']; [discriminate|]. injection Hhd as ->.
        destruct (Hgt s' eq_refl) as [r' ->]. reflexivity.
      * right. intro Hi. apply Hnin. apply Hin; [exact GT_not_space | exact Hi].
  - intros p rest t Hpne E (Hp & Hs & Hh & Hin & Hgt & Hno).
    apply match_spaces_inv in E. destruct E as (run & Erun & _ & Hall & Hrest).
    apply app_inv_tail in Erun. subst run. cbn [app]. repeat split.
    + intros x [<-|Hx] Hsp; [reflexivity | now apply Hp].
    + apply single_spaced_cons; [assumption|].
      intros _ d r Ht. destruct (Sub.is_space d) eqn:Ed; [|reflexivity].
      destruct (Hh _ _ Ht Ed) as (c' & r' & Hr & Hc'). rewrite (Hrest _ _ Hr) in Hc'.
      discriminate.
    + intros c r _ _. destruct p as [|x p]; [now elim Hpne|].
      exists x, (p ++ rest). split; [reflexivity|]. now inversion Hall.
    + intros x Hx [<-|Hi]; [discriminate|]. apply in_or_app. right. now apply Hin.
    + intros r Hr. destruct p as [|x p]; [now elim Hpne|].
      injection Hr as -> _. inversion Hall as [|? ? Hx _]. discriminate.
    + intro H. apply no_open_tag_cons; [|discriminate].
      apply Hno. exact (@no_open_tag_suffix p rest H).
Qed.

Lemma sub_spaces_id (s : str) :
  plain_spaces s -> single_spaced s ->
  Sub.sub Sub.match_spaces [Sub.SPACE] s = s.
Proof.
  induction s as [|c s IH]; intros Hp Hs; [reflexivity|].
  pose proof (IH (@plain_spaces_tail c s Hp) (@single_spaced_tail c s Hs)) as IH'.
  destruct (Sub.is_space c) eqn:Ec.
  - assert (c = Sub.SPACE) as -> by (apply Hp; [now left | assumption]).
    destruct s as [|d s].
    + rewrite (@sub_match _ _ _ _ match_spaces_consumes (@match_spaces_last Sub.SPACE Ec)).
      reflexivity.
    + assert (Hd : Sub.is_space d = false).
      { destruct (Sub.is_space d) eqn:Ed; [|reflexivity].
        elim (Hs [] Sub.SPACE d s eq_refl Ec Ed). }
      rewrite (@sub_match _ _ _ _ match_spaces_consumes (@match_spaces_one Sub.SPACE d s Ec Hd)).
      cbn [app]. now rewrite IH'.
  - rewrite sub_no_match by (now apply match_spaces_none). now rewrite IH'.
Qed.

(** ** [str.strip] *)

Lemma lstrip_inv (s : str) :
  exists l,
    s = l ++ Sub.lstrip s /\ Forall (fun c => Sub.is_space c = true) l /\
    (forall c r, Sub.lstrip s = c :: r -> Sub.is_space c = false).
Proof.
  induction s as [|c s (l & E & Hall & Hhd)]; cbn [Sub.lstrip].
  - exists []. repeat split; auto. discriminate.
  - destruct (Sub.is_space c) eqn:Ec.
    + exists (c :: l). repeat split; auto. cbn. now rewrite <- E.
    + exists []. repeat split; auto. intros c' r [= <- <-]. exact Ec.
Qed.

Lemma rstrip_inv (s : str) :
  exists r,
    s = Sub.rstrip s ++ r /\ Forall (fun c => Sub.is_space c = true) r /\
    (forall t c, Sub.rstrip s = t ++ [c] -> Sub.is_space c = false).
Proof.
  unfold Sub.rstrip. destruct (lstrip_inv (rev s)) as (l & E & Hall & Hhd).
  exists (rev l). repeat split.
  - rewrite <- rev_app_distr, <- E. symmetry. apply rev_involutive.
  - apply Forall_rev. exact Hall.
  - intros t c Ht. apply (f_equal (@rev _)) in Ht.
    rewrite rev_involutive, rev_app_distr in Ht. cbn in Ht. exact (Hhd _ _ Ht).
Qed.

Lemma strip_inv (s : str) :
  exists l r,
    s = l ++ Sub.strip s ++ r /\
    Forall (fun c => Sub.is_space c = true) l /\
    Forall (fun c => Sub.is_space c = true) r /\
    trimmed (Sub.strip s).
Proof.
  unfold Sub.strip.
  destruct (lstrip_inv s) as (l & El & Hl & Hhd).
  destruct (rstrip_inv (Sub.lstrip s)) as (r & Er & Hr & Hlast).
  exists l, r. repeat split; auto.
  - now rewrite <- Er.
  - intros c t Ht. rewrite Ht in Er. exact (Hhd _ _ Er).
Qed.

Lemma lstrip_id (s : str) :
  (forall c r, s = c :: r -> Sub.is_space c = false) -> Sub.lstrip s = s.
Proof.
  destruct s as [|c s]; [reflexivity|]. intro H. cbn [Sub.lstrip].
  now rewrite (H c s eq_refl).
Qed.

Lemma strip_id (s : str) : trimmed s -> Sub.strip s = s.
Proof.
  intros [Hfirst Hlast]. unfold Sub.strip. rewrite (lstrip_id Hfirst).
  unfold Sub.rstrip. rewrite lstrip_id; [apply rev_involutive|].
  intros c r E. apply (Hlast (rev r) c).
  rewrite <- (rev_involutive s), E. reflexivity.
Qed.

Lemma plain_spaces_infix (l t r : str) : plain_spaces (l ++ t ++ r) -> plain_spaces t.
Proof. intros H c Hc. apply H. apply in_or_app. right. apply in_or_app. now left. Qed.

Lemma single_spaced_infix (l t r : str) : single_spaced (l ++ t ++ r) -> single_spaced t.
Proof.
  intros H pre c d post E. apply (H (l ++ pre) c d (post ++ r)).
  rewrite E. rewrite <- !app_assoc. reflexivity.
Qed.

Lemma no_open_tag_strip (l t r : str) :
  Forall (fun c => Sub.is_space c = true) r ->
  no_open_tag (l ++ t ++ r) -> no_open_tag t.
Proof.
  intros Hr H pre post E.
  destruct (H (l ++ pre) (post ++ r)) as [Hhd | Hnin].
  - rewrite E. rewrite <- !app_assoc. reflexivity.
  - destruct post as [|d post]; [right; intros [] | now left].
  - right. intro Hin. apply Hnin. apply in_or_app. now left.
Qed.

(** ** [clean_html] *)

Lemma clean_html_shape (s : str) :
  no_open_tag (clean_html s) /\ plain_spaces (clean_html s) /\
  single_spaced (clean_html s) /\ trimmed (clean_html s).
Proof.
  unfold clean_html.
  destruct (sub_tags_inv s) as (Hno & _ & _).
  destruct (sub_spaces_inv (Sub.sub Sub.match_tag [] s)) as (Hp & Hs & _ & _ & _ & Hkeep).
  destruct (strip_inv (Sub.sub Sub.match_spaces [Sub.SPACE] (Sub.sub Sub.match_tag [] s)))
    as (l & r & E & Hl & Hr & Ht).
  rewrite E in Hp, Hs, Hkeep. repeat split.
  - eapply no_open_tag_strip; [exact Hr | exact (Hkeep Hno)].
  - eapply plain_spaces_infix; exact Hp.
  - eapply single_spaced_infix; exact Hs.
  - apply Ht.
  - apply Ht.
Qed.

Lemma clean_html_fixed (s : str) :
  no_open_tag s -> plain_spaces s -> single_spaced s -> trimmed s ->
  clean_html s = s.
Proof.
  intros Hno Hp Hs Ht. unfold clean_html.
  now rewrite sub_tags_id, sub_spaces_id, strip_id.
Qed.

(** X1. Whatever the text, the result of [clean_html] holds no tag: nowhere
    in it does a [<] come before one or more characters other than [>] and
    then a [>]. *)
Theorem clean_html_removes_tags (s : str) : ~ has_tag (clean_html s).
Proof. apply no_open_tag_no_tag. apply clean_html_shape. Qed.

(** X2. The result of [clean_html] has its white space normalised: the only
    white space character left is the space, no two of them are neighbours,
    and the text neither starts nor ends with one. *)
Theorem clean_html_normalises_spaces (s : str) :
  plain_spaces (clean_html s) /\ single_spaced (clean_html s) /\
  trimmed (clean_html s).
Proof. destruct (clean_html_shape s) as (_ & H). exact H. Qed.

(** X3. The texts [clean_html] leaves as they are are exactly the clean
    ones: no tag, single plain spaces only, none at either end. *)
Theorem clean_html_fixed_points (s : str) :
  clean_html s = s <->
  ~ has_tag s /\ plain_spaces s /\ single_spaced s /\ trimmed s.
Proof.
  split.
  - intro E. pose proof (clean_html_shape s) as H. rewrite E in H.
    destruct H as (Hno & H). split; [now apply no_open_tag_no_tag | exact H].
  - intros (Hno & Hp & Hs & Ht). apply no_open_tag_no_tag in Hno.
    now apply clean_html_fixed.
Qed.

(** X4. Cleaning twice is cleaning once. *)
Theorem clean_html_idempotent (s : str) :
  clean_html (clean_html s) = clean_html s.
Proof.
  destruct (clean_html_shape s) as (Hno & Hp & Hs & Ht).
  now apply clean_html_fixed.
Qed.

(** X5. [clean_html] invents nothing but spaces: every character of its
    result other than the space character occurs in the text given. *)
Theorem clean_html_keeps_characters (s : str) (c : char) :
  In c (clean_html s) -> c = Sub.SPACE \/ In c s.
Proof.
  intro Hin. destruct (clean_html_shape s) as (_ & Hp & _ & _).
  destruct (Sub.is_space c) eqn:Ec; [left; now apply Hp|]. right.
  unfold clean_html in Hin.
  destruct (strip_inv (Sub.sub Sub.match_spaces [Sub.SPACE] (Sub.sub Sub.match_tag [] s)))
    as (l & r & E & _ & _ & _).
  destruct (sub_spaces_inv (Sub.sub Sub.match_tag [] s)) as (_ & _ & _ & Hkeep & _ & _).
  destruct (sub_tags_inv s) as (_ & Hincl & _).
  apply Hincl. apply Hkeep; [exact Ec|].
  rewrite E. apply in_or_app. right. apply in_or_app. now left.
Qed.

Lemma clean_html_keeps_characters_witness :
  let s := of_string "<p> a  b </p>" in
  In 98%N (clean_html s) /\ (98%N = Sub.SPACE \/ In 98%N s).
Proof.
  intro s.
  assert (H : In 98%N (clean_html s)) by (vm_compute; auto).
  split; [exact H | exact (@clean_html_keeps_characters s 98%N H)].
Defined.

(** ** More on [extract_links] *)

Lemma Found_sound (text : str) (urls : list str) :
  Found text urls ->
  forall url, In url urls ->
    http_url url /\ exists pre post, text = pre ++ href url ++ post.
Proof.
  induction 1 as [text Hnone | text pre url post urls [E Hu] Hleft _ IH];
    intros u Hin.
  - destruct Hin.
  - destruct Hin as [<-|Hin].
    + split; [assumption|]. now exists pre, post.
    + destruct (IH u Hin) as (Hu' & pre' & post' & E').
      split; [assumption|]. exists (pre ++ href url ++ pre'), post'.
      rewrite E, E'. now rewrite <- !app_assoc.
Qed.

Lemma Found_lengths (text : str) (urls : list str) :
  Found text urls ->
  list_sum (map (fun url => length url + 7) urls) <= length text.
Proof.
  induction 1 as [text Hnone | text pre url post urls [E Hu] Hleft _ IH].
  - cbn. lia.
  - cbn [map list_sum fold_right]. rewrite E, !length_app, href_length.
    unfold list_sum in IH. lia.
Qed.

(** X6. Every link [extract_links] returns is an http or https URL free of
    double quotes, and stands in the text between the quotes of an [href]
    attribute. *)
Theorem extract_links_sound (text url : str) :
  In url (extract_links text) ->
  http_url url /\ exists pre post, text = pre ++ href url ++ post.
Proof.
  intro H. exact (Found_sound (findall_Found text) url H).
Qed.

Lemma extract_links_sound_witness :
  In ex_bob (extract_links doc_alice_bob) /\
  http_url ex_bob /\ exists pre post, doc_alice_bob = pre ++ href ex_bob ++ post.
Proof.
  assert (H : In ex_bob (extract_links doc_alice_bob)) by (vm_compute; auto).
  split; [exact H | exact (@extract_links_sound doc_alice_bob ex_bob H)].
Defined.

(** X7. [extract_links] returns the empty list exactly for the texts that
    hold no [href] attribute with an http or https URL anywhere. *)
Theorem extract_links_empty (text : str) :
  extract_links text = [] <->
  forall pre url post, ~ href_at text pre url post.
Proof.
  unfold extract_links, Re.findall. split.
  - intros E pre url post Hat.
    pose proof (findall_Found text) as HF. unfold Re.findall in HF. rewrite E in HF.
    inversion HF as [t Hnone|]; subst. exact (Hnone _ _ _ Hat).
  - apply findall_none.
Qed.

(** X8. The matches do not overlap: the links returned, each with the seven
    characters of [href=] and the two quotes around it, fit side by side in
    the text. *)
Theorem extract_links_fit (text : str) :
  list_sum (map (fun url => length url + 7) (extract_links text)) <= length text.
Proof. exact (Found_lengths (findall_Found text)). Qed.

(** ** [main]: files that cannot be read *)

(** X9. With both paths given, a followers file that cannot be read ends the
    run with the exception that [open] or [f.read()] ended with
    ([FileNotFoundError] for a missing file, [IsADirectoryError] for a
    directory, [UnicodeDecodeError] for bytes that are not UTF-8, and so on),
    before the followings file is touched; a followings file that cannot be
    read ends it the same way after both opens.  [main] handles none of
    these exceptions, and in either case nothing has been printed and no tab
    opened. *)
Theorem main_unreadable_file (fs : filesystem) (args : Args) :
  truthy (followers args) = true ->
  truthy (followings args) = true ->
  (fs (path_of (followers args)) = None ->
   main fs args =
     ([ReadFile (path_of (followers args))],
      Raise (failure fs (path_of (followers args)))))
  /\
  (forall followers_doc,
     fs (path_of (followers args)) = Some followers_doc ->
     fs (path_of (followings args)) = None ->
     main fs args =
       ([ReadFile (path_of (followers args)); ReadFile (path_of (followings args))],
        Raise (failure fs (path_of (followings args))))).
Proof.
  intros T1 T2. unfold main, read_file. rewrite T1, T2. cbn [negb orb].
  split.
  - intros ->. reflexivity.
  - intros doc -> ->. reflexivity.
Qed.

Lemma main_unreadable_file_witness :
  main quiet_world default_args =
    ([ReadFile (path_of (followers default_args))],
     Raise (failure quiet_world (path_of (followers default_args))))
  /\ main (followings_a_directory doc_alice) default_args =
       ([ReadFile (path_of (followers default_args));
         ReadFile (path_of (followings default_args))],
        Raise (failure (followings_a_directory doc_alice)
                       (path_of (followings default_args))))
  /\ failure quiet_world (path_of (followers default_args)) = FileNotFoundError
  /\ failure (followings_a_directory doc_alice) (path_of (followings default_args))
     = IsADirectoryError.
Proof.
  split; [|split; [|split; reflexivity]].
  - apply (@main_unreadable_file quiet_world default_args); reflexivity.
  - apply (@main_unreadable_file (followings_a_directory doc_alice) default_args)
      with (followers_doc := doc_alice); reflexivity.
Defined.

(** ** [main]: the batch opener on any batch size and pause *)

Lemma main_batches (fs : filesystem) (args : Args) (followers_doc followings_doc : str) :
  readable fs args followers_doc followings_doc ->
  result_list followers_doc followings_doc <> [] ->
  main fs args =
    (prologue args (length (result_list followers_doc followings_doc))
     ++ fst (open_in_batches fs (result_list followers_doc followings_doc)
                             (num_tabs args) (duration args)),
     snd (open_in_batches fs (result_list followers_doc followings_doc)
                          (num_tabs args) (duration args))).
Proof.
  intros (T1 & T2 & F1 & F2) Hne. rewrite (main_reads _ _ T1 T2 F1 F2).
  destruct (result_list followers_doc followings_doc) as [|x l]; [now elim Hne|].
  destruct (open_in_batches fs (x :: l) (num_tabs args) (duration args)) as [tr r].
  destruct r as [[]|e]; reflexivity.
Qed.

Lemma open_in_batches_zero (w : world) (links : list str) (d : Z) :
  open_in_batches w links 0 d = ([], Raise ValueError).
Proof. reflexivity. Qed.

Lemma open_in_batches_negative (w : world) (links : list str) (n d : Z) :
  (n < 0)%Z -> open_in_batches w links n d = ([], Ok tt).
Proof.
  intro Hn. unfold open_in_batches, range3.
  destruct (Z.eqb_spec n 0); [lia|].
  unfold range_list, range_length.
  destruct (Z.ltb_spec 0 n); [lia|].
  destruct (Z.ltb_spec (len links) 0); [unfold len in *; lia|].
  reflexivity.
Qed.



(** X10. A batch size of zero: with both files read and a non-empty Result
    List, [main] prints the count line and then ends with [ValueError] (the
    step of [range] is zero); no tab is opened and there is no pause. *)
Theorem main_zero_batch_size (fs : filesystem) (args : Args)
    (followers_doc followings_doc : str) :
  readable fs args followers_doc followings_doc ->
  result_list followers_doc followings_doc <> [] ->
  num_tabs args = 0%Z ->
  main fs args =
    (prologue args (length (result_list followers_doc followings_doc)),
     Raise ValueError).
Proof.
  intros Hr Hne Hn. rewrite (main_batches Hr Hne), Hn, open_in_batches_zero.
  cbn [fst snd]. now rewrite app_nil_r.
Qed.

Lemma main_zero_batch_size_witness :
  let args :=
    {| followers := Some followers_path; followings := Some followings_path;
       num_tabs := 0; duration := 30 |} in
  main (two_files [] doc_alice) args = 
    (prologue args (length (result_list [] doc_alice)), Raise ValueError).
Proof.
  intro args. apply (@main_zero_batch_size (two_files [] doc_alice) _ [] doc_alice).
  - repeat split.
  - vm_compute. discriminate.
  - reflexivity.
Defined.

(** X11. A negative batch size: with both files read and a non-empty Result
    List, [main] prints the count line and returns normally without opening
    any tab, pausing, or printing anything else. *)
Theorem main_negative_batch_size (fs : filesystem) (args : Args)
    (followers_doc followings_doc : str) :
  readable fs args followers_doc followings_doc ->
  result_list followers_doc followings_doc <> [] ->
  (num_tabs args < 0)%Z ->
  main fs args =
    (prologue args (length (result_list followers_doc followings_doc)), Ok tt).
Proof.
  intros Hr Hne Hn.
  rewrite (main_batches Hr Hne), (@open_in_batches_negative fs _ _ _ Hn).
  cbn [fst snd]. now rewrite app_nil_r.
Qed.

Lemma main_negative_batch_size_witness :
  let args :=
    {| followers := Some followers_path; followings := Some followings_path;
       num_tabs := -2; duration := 30 |} in
  main (two_files [] doc_alice) args = 
    (prologue args (length (result_list [] doc_alice)), Ok tt).
Proof.
  intro args. apply (@main_negative_batch_size (two_files [] doc_alice) _ [] doc_alice).
  - repeat split.
  - vm_compute. discriminate.
  - reflexivity.
Defined.



(** ** [main]: which tabs get opened *)

Lemma opened_prologue (args : Args) (count : nat) (tr : list event) :
  opened (prologue args count ++ tr) = opened tr.
Proof. reflexivity. Qed.

Lemma firstn_add (A : Type) (a b : nat) (l : list A) :
  firstn (a + b) l = firstn a l ++ firstn b (skipn a l).
Proof.
  revert l. induction a as [|a IH]; intro l; [reflexivity|].
  destruct l as [|x l]; [cbn [Nat.add firstn skipn app]; now rewrite firstn_nil|].
  cbn [Nat.add firstn skipn app]. now rewrite IH.
Qed.

(** The first [j] chunks put end to end are the first [j * n] links. *)
Lemma chunks_firstn (j n : nat) (l : list str) :
  concat (map (chunk l n) (seq 0 j)) = firstn (j * n) l.
Proof.
  revert l. induction j as [|j IH]; intro l; [reflexivity|].
  cbn [seq map concat]. rewrite <- seq_shift, map_map.
  rewrite (map_ext _ (chunk (skipn n l) n)) by (intro; apply chunk_succ).
  rewrite IH. unfold chunk. cbn [Nat.mul skipn]. now rewrite firstn_add.
Qed.

(** The tabs the batch opener opens are an initial part of the list, for
    every batch size and pause and whatever becomes of the pauses. *)
Lemma open_in_batches_prefix (w : world) (links : list str) (n d : Z) :
  exists k, opened (fst (open_in_batches w links n d)) = firstn k links.
Proof.
  destruct (Z.lt_trichotomy n 0) as [Hn | [-> | Hn]].
  - exists 0. now rewrite open_in_batches_negative.
  - exists 0. reflexivity.
  - assert (Hn' : (1 <= n)%Z) by lia.
    destruct (@open_in_batches_opened w links n d Hn') as [j Hj].
    exists (j * Z.to_nat n). rewrite Hj. apply chunks_firstn.
Qed.

Lemma main_opened_prefix (fs : filesystem) (args : Args)
    (followers_doc followings_doc : str) :
  readable fs args followers_doc followings_doc ->
  exists k,
    opened (fst (main fs args)) = firstn k (result_list followers_doc followings_doc).
Proof.
  intro Hr.
  destruct (result_list followers_doc followings_doc) as [|x l] eqn:E.
  - exists 0. destruct Hr as (T1 & T2 & F1 & F2).
    rewrite (main_reads _ _ T1 T2 F1 F2), E. reflexivity.
  - assert (Hne : result_list followers_doc followings_doc <> []) by (rewrite E; discriminate).
    rewrite (main_batches Hr Hne). cbn [fst]. rewrite opened_prologue, E.
    apply open_in_batches_prefix.
Qed.

Lemma In_firstn (A : Type) (k : nat) (l : list A) (x : A) :
  In x (firstn k l) -> In x l.
Proof. intro H. rewrite <- (firstn_skipn k l). apply in_or_app. now left. Qed.

Lemma main_cases (fs : filesystem) (args : Args) :
  opened (fst (main fs args)) = [] \/
  exists followers_doc followings_doc, readable fs args followers_doc followings_doc.
Proof.
  destruct (truthy (followers args)) eqn:T1.
  2:{ left. unfold main. rewrite T1. reflexivity. }
  destruct (truthy (followings args)) eqn:T2.
  2:{ left. unfold main. rewrite T1, T2. reflexivity. }
  destruct (fs (path_of (followers args))) as [fw|] eqn:F1.
  2:{ left. unfold main, read_file. rewrite T1, T2, F1. reflexivity. }
  destruct (fs (path_of (followings args))) as [fg|] eqn:F2.
  2:{ left. unfold main, read_file. rewrite T1, T2, F1, F2. reflexivity. }
  right. exists fw, fg. repeat split; assumption.
Qed.

(** X13. Whatever the batch size and the pause, the tabs a run opens are an
    initial part of its Result List, in the list's order: no link is opened
    out of turn, twice, or before an earlier one. *)
Theorem main_opens_initial_part (fs : filesystem) (args : Args)
    (followers_doc followings_doc : str) :
  readable fs args followers_doc followings_doc ->
  exists k,
    opened (fst (main fs args)) = firstn k (result_list followers_doc followings_doc).
Proof. apply main_opened_prefix. Qed.

Lemma main_opens_initial_part_witness :
  exists k,
    opened (fst (main (two_files [] doc_alice_bob) default_args))
    = firstn k (result_list [] doc_alice_bob).
Proof.
  apply (@main_opens_initial_part (two_files [] doc_alice_bob) default_args
           [] doc_alice_bob).
  repeat split.
Defined.

(** X14. On no input at all does [main] open a tab for anything but a link
    that contains the Instagram prefix and is absent from the links of the
    followers file it read. *)
Theorem main_opens_only_instagram (fs : filesystem) (args : Args) (url : str) :
  In url (opened (fst (main fs args))) ->
  substring instagram url /\
  exists followers_doc,
    fs (path_of (followers args)) = Some followers_doc /\
    ~ In url (extract_links followers_doc).
Proof.
  intro Hin. destruct (main_cases fs args) as [E | (fw & fg & Hr)].
  - rewrite E in Hin. destruct Hin.
  - destruct (main_opened_prefix Hr) as [k Hk]. rewrite Hk in Hin.
    apply In_firstn, result_list_In in Hin. destruct Hin as (_ & Hi & Hn).
    split; [assumption|]. exists fw. split; [apply Hr | assumption].
Qed.

Lemma main_opens_only_instagram_witness :
  In ex_alice (opened (fst (main (two_files [] doc_alice) default_args))) /\
  substring instagram ex_alice /\
  exists followers_doc,
    two_files [] doc_alice (path_of (followers default_args)) = Some followers_doc /\
    ~ In ex_alice (extract_links followers_doc).
Proof.
  assert (H : In ex_alice (opened (fst (main (two_files [] doc_alice) default_args))))
    by (vm_compute; auto).
  split; [exact H|].
  exact (@main_opens_only_instagram (two_files [] doc_alice) default_args ex_alice H).
Defined.





(** ** [find_and_extract_diff_links] with one side empty *)

Lemma filter_none (A : Type) (p : A -> bool) (l : list A) :
  (forall x, In x l -> p x = false) -> filter p l = [].
Proof.
  induction l as [|x l IH]; intro H; [reflexivity|].
  cbn [filter]. rewrite (H x (or_introl eq_refl)). apply IH.
  intros y Hy. apply H. now right.
Qed.

(** X16. The function as it is declared, on a one-line [followers] text:
    against an empty [followings] text it returns exactly the links of
    [followers] that contain the Instagram prefix, in order and with
    repetitions; with the one-line text as [followings] and an empty
    [followers] text it returns nothing. *)
Theorem find_and_extract_diff_links_one_line (doc : str) :
  single_line doc ->
  find_and_extract_diff_links doc [] = filter (contains instagram) (extract_links doc)
  /\ find_and_extract_diff_links [] doc = [].
Proof.
  unfold single_line, find_and_extract_diff_links. intro Hline.
  rewrite Hline. change (splitlines []) with (@nil str).
  rewrite extract_links_all_added, extract_links_all_removed. split.
  - apply filter_ext. intro link. cbn. now rewrite andb_true_r.
  - apply filter_none. intros link Hin.
    apply (proj2 (mem_In link (extract_links doc))) in Hin. rewrite Hin.
    apply andb_false_r.
Qed.

Lemma find_and_extract_diff_links_one_line_witness :
  find_and_extract_diff_links doc_bob [] = filter (contains instagram) (extract_links doc_bob)
  /\ find_and_extract_diff_links [] doc_bob = [].
Proof.
  apply (@find_and_extract_diff_links_one_line doc_bob). reflexivity.
Defined.

(** ** [str.splitlines] *)

Lemma splitlines_from_concat (n : nat) (s cur : str) :
  length s <= n ->
  concat (splitlines_from cur s) = rev cur ++ s /\
  Forall (fun l => l <> []) (splitlines_from cur s).
Proof.
  revert s cur. induction n as [|n IH]; intros s cur Hle.
  - destruct s; [|cbn in Hle; lia]. cbn [splitlines_from].
    destruct cur as [|x cur]; cbn [concat]; rewrite ?app_nil_r; split; auto.
    constructor; [|constructor]. cbn. now destruct (rev cur).
  - destruct s as [|c s].
    { cbn [splitlines_from].
      destruct cur as [|x cur]; cbn [concat]; rewrite ?app_nil_r; split; auto.
      constructor; [|constructor]. cbn. now destruct (rev cur). }
    assert (Hne : forall x (l : str), rev (x :: l) <> [])
      by (intros x l; cbn; now destruct (rev l)).
    assert (Hbreak : concat (rev (c :: cur) :: splitlines_from [] s)
                     = rev cur ++ c :: s /\
                     Forall (fun l => l <> []) (rev (c :: cur) :: splitlines_from [] s)).
    { destruct (IH s [] ltac:(cbn in Hle; lia)) as [E F]. split.
      - cbn [concat]. rewrite E. cbn. now rewrite <- app_assoc.
      - constructor; [apply Hne | exact F]. }
    cbn [splitlines_from]. destruct (is_linebreak c).
    + destruct (N.eqb c CR); [|exact Hbreak].
      destruct s as [|d s]; [exact Hbreak|].
      destruct (N.eqb d LF); [|exact Hbreak].
      destruct (IH s [] ltac:(cbn in Hle; lia)) as [E F]. split.
      * cbn [concat]. rewrite E. cbn. now rewrite <- !app_assoc.
      * constructor; [apply Hne | exact F].
    + destruct (IH s (c :: cur) ltac:(cbn in Hle; lia)) as [E F]. split.
      * rewrite E. cbn. now rewrite <- app_assoc.
      * exact F.
Qed.

Lemma splitlines_join (s : str) : join (splitlines s) = s.
Proof. exact (proj1 (@splitlines_from_concat (length s) s [] (le_n _))). Qed.

(** X17. Splitting a document into lines with the line ends kept loses
    nothing: the lines put one after the other are the document again, and
    no line is empty. *)
Theorem splitlines_keepends_round_trip (s : str) :
  join (splitlines s) = s /\ Forall (fun l => l <> []) (splitlines s).
Proof. exact (@splitlines_from_concat (length s) s [] (le_n _)). Qed.

(** ** The matcher reports only real matches *)

Lemma chain_b_sound (b : list str) : b2j_sound b (Difflib.chain_b b).
Proof.
  intros x j. rewrite chain_b_get. destruct (popular b x); [intros []|].
  rewrite positions_In, Nat.sub_0_r. intros [? ?]. split; [lia | assumption].
Qed.

Section Real.

Variables a b : list str.
Variable b2j : Difflib.dict_b2j.
Hypothesis b2j_ok : b2j_sound b b2j.

Lemma run_ends_next (i j : nat) (prev : Difflib.dict_j2len) :
  j2len_real a b i prev ->
  nth j b [] = nth i a [] ->
  run_ends a b i j (Difflib.j2len_get_pred prev j + 1).
Proof.
  intros Hprev E.
  assert (Hone : run_ends a b i j 1).
  { repeat split; try lia. intros t Ht. replace t with 0 by lia.
    now rewrite !Nat.sub_0_r. }
  destruct j as [|j0]; cbn [Difflib.j2len_get_pred]; [exact Hone|].
  destruct (Hprev j0) as [-> | (i0 & -> & Hk & Hk' & Hrun)]; [exact Hone|].
  repeat split; try lia. intros t Ht. destruct t as [|t].
  - now rewrite !Nat.sub_0_r.
  - cbn [Nat.sub]. apply Hrun. lia.
Qed.

Lemma scan_row_real (i bhi blo : nat) (prev : Difflib.dict_j2len) :
  i < length a ->
  j2len_real a b i prev ->
  forall (js : list nat) (nj : Difflib.dict_j2len) (best : Difflib.Match),
    (forall j, In j js -> j < length b /\ nth j b [] = nth i a []) ->
    j2len_real a b (S i) nj ->
    real_match a b best ->
    j2len_real a b (S i) (fst (Difflib.scan_row i blo bhi prev js nj best)) /\
    real_match a b (snd (Difflib.scan_row i blo bhi prev js nj best)).
Proof.
  intros Hi Hprev. induction js as [|j js IH]; intros nj best Hjs Hnj Hbest.
  - split; assumption.
  - cbn [Difflib.scan_row].
    assert (Hjs' : forall j', In j' js -> j' < length b /\ nth j' b [] = nth i a [])
      by (intros; apply Hjs; now right).
    destruct (j <? blo); [now apply IH|].
    destruct (bhi <=? j); [split; assumption|].
    destruct (Hjs j (or_introl eq_refl)) as [Hj Ej].
    pose proof (run_ends_next j Hprev Ej) as Hrun.
    destruct best as [[p q] bs].
    apply IH; [assumption | |].
    + intro j'. cbn [Difflib.j2len_get].
      destruct (Nat.eqb_spec j j') as [<-|]; [|apply Hnj].
      right. exists i. split; [reflexivity | exact Hrun].
    + destruct (bs <? Difflib.j2len_get_pred prev j + 1); [|assumption].
      destruct Hrun as (Hk & Hk' & Hrun). unfold real_match.
      split; [lia|]. split; [lia|]. intros t Ht.
      replace (i + 1 - (Difflib.j2len_get_pred prev j + 1) + t)
        with (i - (Difflib.j2len_get_pred prev j + 1 - 1 - t)) by lia.
      replace (j + 1 - (Difflib.j2len_get_pred prev j + 1) + t)
        with (j - (Difflib.j2len_get_pred prev j + 1 - 1 - t)) by lia.
      apply Hrun. lia.
Qed.

Lemma scan_rows_real (blo bhi len start : nat)
    (st : Difflib.dict_j2len * Difflib.Match) :
  start + len <= length a ->
  j2len_real a b start (fst st) ->
  real_match a b (snd st) ->
  real_match a b
    (snd (fold_left
            (fun st i =>
               Difflib.scan_row i blo bhi (fst st)
                 (Difflib.b2j_get b2j (nth i a [])) [] (snd st))
            (seq start len) st)).
Proof.
  revert start st. induction len as [|len IH]; intros start st He Hj Hb.
  - assumption.
  - cbn [seq fold_left].
    destruct (@scan_row_real start bhi blo (fst st) ltac:(lia) Hj
                (Difflib.b2j_get b2j (nth start a [])) [] (snd st)) as [Hj' Hb'].
    + intros j Hin. now apply b2j_ok.
    + intro j. now left.
    + assumption.
    + apply IH; [lia | assumption | assumption].
Qed.

Lemma extend_left_real (alo blo p q bs : nat) :
  real_match a b (p, q, bs) ->
  real_match a b (Difflib.extend_left a b alo blo p q bs).
Proof.
  revert q bs. induction p as [|p IH]; intros q bs H; cbn [Difflib.extend_left].
  - assumption.
  - destruct (alo <? S p); cbn [andb]; [|assumption].
    destruct (Nat.ltb_spec blo q); cbn [andb]; [|assumption].
    destruct (str_eqb_spec (nth p a []) (nth (q - 1) b [])) as [E|]; [|assumption].
    apply IH. destruct H as (Ha & Hb & Hrun). repeat split; try lia.
    intros t Ht. destruct t as [|t].
    + now rewrite !Nat.add_0_r.
    + replace (p + S t) with (S p + t) by lia.
      replace (q - 1 + S t) with (q + t) by lia. apply Hrun. lia.
Qed.

Lemma extend_right_real (ahi bhi room p q bs : nat) :
  ahi <= length a -> bhi <= length b ->
  real_match a b (p, q, bs) ->
  real_match a b (Difflib.extend_right a b ahi bhi room p q bs).
Proof.
  intros Ha Hb. revert bs. induction room as [|room IH]; intros bs H;
    cbn [Difflib.extend_right].
  - assumption.
  - destruct (Nat.ltb_spec (p + bs) ahi); cbn [andb]; [|assumption].
    destruct (Nat.ltb_spec (q + bs) bhi); cbn [andb]; [|assumption].
    destruct (str_eqb_spec (nth (p + bs) a []) (nth (q + bs) b [])) as [E|]; [|assumption].
    apply IH. destruct H as (_ & _ & Hrun). repeat split; try lia.
    intros t Ht. destruct (Nat.eq_dec t bs) as [->|]; [exact E | apply Hrun; lia].
Qed.

Lemma find_longest_match_real (alo ahi blo bhi : nat) :
  window_in a b (alo, ahi, blo, bhi) ->
  real_match a b (Difflib.find_longest_match a b b2j alo ahi blo bhi).
Proof.
  intros [[Ha Ha'] [Hb Hb']].
  unfold Difflib.find_longest_match, Difflib.scan_rows.
  pose proof (@scan_rows_real blo bhi (ahi - alo) alo ([], (alo, blo, 0))
                ltac:(lia)) as H.
  cbn [fst snd] in H.
  specialize (H ltac:(intro j; now left)
                ltac:(unfold real_match; repeat split; try lia; intros; lia)).
  destruct (snd (fold_left _ _ _)) as [[p q] bs].
  pose proof (@extend_left_real alo blo p q bs H) as HL.
  destruct (Difflib.extend_left a b alo blo p q bs) as [[p1 q1] bs1].
  now apply extend_right_real.
Qed.

Lemma blocks_loop_real (fuel : nat) (queue : list Difflib.window)
    (acc : list Difflib.Match) :
  Forall (window_in a b) queue ->
  Forall (real_match a b) acc ->
  Forall (real_match a b) (Difflib.blocks_loop a b b2j fuel queue acc).
Proof.
  revert queue acc. induction fuel as [|fuel IH]; intros queue acc Hq Hacc.
  - assumption.
  - destruct queue as [|[[[alo ahi] blo] bhi] queue]; [assumption|].
    inversion Hq as [|? ? Hw Hq']; subst.
    pose proof (find_longest_match_real Hw) as Hreal.
    destruct Hw as [[Ha Ha'] [Hb Hb']].
    pose proof (@find_longest_match_in_window a b b2j alo ahi blo bhi Ha Hb) as Hin.
    cbn [Difflib.blocks_loop].
    destruct (Difflib.find_longest_match a b b2j alo ahi blo bhi) as [[i j] k].
    unfold block_in in Hin.
    destruct (k =? 0); [now apply IH|].
    apply IH.
    + destruct ((i + k <? ahi) && (j + k <? bhi)), ((alo <? i) && (blo <? j));
        repeat (apply Forall_cons; [unfold window_in; lia|]); assumption.
    + apply Forall_app. split; [assumption | now constructor].
Qed.

End Real.

Lemma insert_sorted_Forall (P : Difflib.Match -> Prop) (x : Difflib.Match)
    (l : list Difflib.Match) :
  P x -> Forall P l -> Forall P (Difflib.insert_sorted x l).
Proof.
  intros Hx Hl. induction l as [|y l IH]; cbn [Difflib.insert_sorted].
  - now constructor.
  - inversion Hl; subst. destruct (Difflib.match_leb x y); constructor; auto.
Qed.

Lemma sort_blocks_Forall (P : Difflib.Match -> Prop) (l : list Difflib.Match) :
  Forall P l -> Forall P (Difflib.sort_blocks l).
Proof.
  unfold Difflib.sort_blocks. induction 1; cbn [fold_right]; [constructor|].
  now apply insert_sorted_Forall.
Qed.

Lemma collapse_real (a b : list str) (blocks : list Difflib.Match) (i1 j1 k1 : nat) :
  real_match a b (i1, j1, k1) ->
  Forall (real_match a b) blocks ->
  Forall (fun m => real_match a b m /\ 0 < size_of m) (Difflib.collapse i1 j1 k1 blocks).
Proof.
  revert i1 j1 k1. induction blocks as [|[[i2 j2] k2] blocks IH];
    intros i1 j1 k1 H1 Hall; cbn [Difflib.collapse].
  - destruct (Nat.eqb_spec k1 0); constructor; [|constructor].
    split; [assumption | cbn; lia].
  - inversion Hall as [|? ? H2 Hall']; subst.
    destruct (Nat.eqb_spec (i1 + k1) i2) as [Ei|]; cbn [andb].
    + destruct (Nat.eqb_spec (j1 + k1) j2) as [Ej|].
      * apply IH; [|assumption]. subst i2 j2.
        destruct H1 as (_ & _ & R1). destruct H2 as (A2 & B2 & R2).
        repeat split; try lia. intros t Ht.
        destruct (Nat.lt_ge_cases t k1) as [Hlt|Hge]; [now apply R1|].
        replace (i1 + t) with (i1 + k1 + (t - k1)) by lia.
        replace (j1 + t) with (j1 + k1 + (t - k1)) by lia. apply R2. lia.
      * apply Forall_app. split; [|now apply IH].
        destruct (Nat.eqb_spec k1 0); constructor; [|constructor].
        split; [assumption | cbn; lia].
    + apply Forall_app. split; [|now apply IH].
      destruct (Nat.eqb_spec k1 0); constructor; [|constructor].
      split; [assumption | cbn; lia].
Qed.

(** The blocks of [get_matching_blocks], the closing dummy apart, are real
    matches of positive length. *)
Lemma get_matching_blocks_real (a b : list str) :
  exists blocks,
    Difflib.get_matching_blocks a b = blocks ++ [(length a, length b, 0)] /\
    Forall (fun m => real_match a b m /\ 0 < size_of m) blocks.
Proof.
  unfold Difflib.get_matching_blocks. eexists. split; [reflexivity|].
  apply collapse_real.
  - repeat split; lia.
  - apply sort_blocks_Forall. apply blocks_loop_real.
    + apply chain_b_sound.
    + constructor; [unfold window_in; lia | constructor].
    + constructor.
Qed.

(** ** An empty diff *)

Lemma group_loop_nil (n : nat) (codes group : list Difflib.opcode) :
  Difflib.group_loop n group codes = [] ->
  group ++ codes = [] \/
  exists c, group ++ codes = [c] /\ tag_of c = Difflib.Equal.
Proof.
  revert group. induction codes as [|[[[[t i1] i2] j1] j2] codes IH]; intro group;
    cbn [Difflib.group_loop].
  - rewrite app_nil_r. destruct group as [|c group]; [now left|].
    destruct group as [|c' group].
    + destruct c as [[[[t i1] i2] j1] j2]. destruct t; cbn; try discriminate.
      intros _. right. now eexists.
    + destruct c as [[[[t i1] i2] j1] j2]. destruct t; discriminate.
  - destruct (Difflib.is_equal t && (n + n <? i2 - i1)); [discriminate|].
    intro H. apply IH in H. now rewrite <- app_assoc in H.
Qed.

Lemma trim_first_tags (n : nat) (codes : list Difflib.opcode) :
  map tag_of (Difflib.trim_first n codes) = map tag_of codes.
Proof.
  destruct codes as [|[[[[t i1] i2] j1] j2] codes]; [reflexivity|].
  now destruct t.
Qed.

Lemma trim_last_tags (n : nat) (codes : list Difflib.opcode) :
  map tag_of (Difflib.trim_last n codes) = map tag_of codes.
Proof.
  induction codes as [|[[[[t i1] i2] j1] j2] codes IH]; [reflexivity|].
  destruct t, codes as [|o codes]; try reflexivity;
    change (Difflib.trim_last n (?c :: o :: codes))
      with (c :: Difflib.trim_last n (o :: codes));
    cbn [map]; f_equal; exact IH.
Qed.

Lemma opcodes_all_equal (a b : list str) (blocks : list Difflib.Match) :
  Forall (fun m => real_match a b m /\ 0 < size_of m) blocks ->
  (map tag_of (Difflib.opcodes_from 0 0 (blocks ++ [(length a, length b, 0)])) = [] \/
   map tag_of (Difflib.opcodes_from 0 0 (blocks ++ [(length a, length b, 0)]))
   = [Difflib.Equal]) ->
  a = b.
Proof.
  intros Hall Htags. destruct blocks as [|[[ai bj] size] blocks].
  - (* no block at all: both sequences are empty *)
    cbn [app Difflib.opcodes_from] in Htags.
    destruct (Nat.ltb_spec 0 (length a)), (Nat.ltb_spec 0 (length b));
      cbn [andb app map tag_of Nat.eqb] in Htags;
      try (destruct Htags; discriminate).
    destruct a, b; cbn [length] in *; try lia. reflexivity.
  - inversion Hall as [|? ? [Hreal Hsize] Hall']; subst. cbn [size_of] in Hsize.
    cbn [app Difflib.opcodes_from] in Htags.
    destruct (Nat.eqb_spec size 0); [lia|].
    destruct (Nat.ltb_spec 0 ai), (Nat.ltb_spec 0 bj);
      cbn [andb app map tag_of] in Htags;
      try (destruct Htags; discriminate).
    destruct Htags as [Htags | Htags]; [discriminate|].
    injection Htags as Htags.
    assert (ai = 0) by lia. assert (bj = 0) by lia. subst ai bj.
    rewrite !Nat.add_0_l in Htags.
    destruct blocks as [|[[ai' bj'] size'] blocks].
    + cbn [app Difflib.opcodes_from] in Htags.
      destruct (Nat.ltb_spec size (length a)), (Nat.ltb_spec size (length b));
        cbn [andb app map tag_of Nat.eqb] in Htags; try discriminate.
      destruct Hreal as (Ha & Hb & Hrun).
      apply (nth_ext a b [] []); [lia|]. intros t Ht. apply (Hrun t). lia.
    + inversion Hall' as [|? ? [_ Hsize'] _]; subst. cbn [size_of] in Hsize'.
      cbn [app Difflib.opcodes_from] in Htags.
      destruct (Nat.eqb_spec size' 0); [lia|].
      rewrite !map_app in Htags. cbn [map] in Htags.
      apply (f_equal (@length _)) in Htags.
      rewrite !length_app in Htags. cbn [length] in Htags. lia.
Qed.

Lemma unified_diff_nil_equal (a b : list str) :
  Difflib.unified_diff a b = [] -> a = b.
Proof.
  unfold Difflib.unified_diff.
  destruct (Difflib.get_grouped_opcodes a b 3) as [|g gs] eqn:G; [intros _ | discriminate].
  unfold Difflib.get_grouped_opcodes in G. cbv zeta in G.
  assert (Htags :
            map tag_of (Difflib.get_opcodes a b) = [] \/
            map tag_of (Difflib.get_opcodes a b) = [Difflib.Equal]).
  { destruct (Difflib.get_opcodes a b) as [|c ops]; [now left|].
    apply group_loop_nil in G. cbn [app] in G.
    rewrite <- (trim_first_tags 3), <- (trim_last_tags 3).
    destruct G as [-> | (c' & -> & Hc)]; [now left | right; cbn; now rewrite Hc]. }
  unfold Difflib.get_opcodes in Htags.
  destruct (get_matching_blocks_real a b) as (blocks & E & Hall).
  rewrite E in Htags. exact (@opcodes_all_equal a b blocks Hall Htags).
Qed.

Lemma unified_diff_header (a b : list str) :
  Difflib.unified_diff a b = [] \/
  exists rest,
    Difflib.unified_diff a b = (of_string "--- " ++ Difflib.lineterm) :: rest.
Proof.
  unfold Difflib.unified_diff.
  destruct (Difflib.get_grouped_opcodes a b 3); [now left|].
  right. eexists. reflexivity.
Qed.

(** X18. The diff text that [find_and_extract_diff_links] hands to the link
    extractor is empty exactly when the two documents are the same text. *)
Theorem diff_empty_iff_same_document (followers_text followings_text : str) :
  join (Difflib.unified_diff (splitlines followings_text) (splitlines followers_text)) = []
  <-> followers_text = followings_text.
Proof.
  split.
  - intro H.
    destruct (unified_diff_header (splitlines followings_text) (splitlines followers_text))
      as [E | [rest E]].
    + apply unified_diff_nil_equal in E.
      rewrite <- (splitlines_join followers_text), <- (splitlines_join followings_text).
      now rewrite E.
    + rewrite E in H. discriminate.
  - intros ->. now rewrite unified_diff_identical.
Qed.
